(** * Tag rules of commitizen: a shallow embedding and its properties

    The development follows [commitizen/tags.py] (class [TagRules]) and
    [commitizen/changelog_formats/markdown.py] (class [Markdown]).

    Python values are modelled as follows.
    - [str] is a list of characters ([list ascii]); only the ASCII range is
      modelled.
    - exceptions are the constructors of [exn]; a computation that may raise
      returns a [result].
    - the [re] module is modelled by an abstract syntax [regex], a
      backtracking matcher [run] that enumerates the successful paths in the
      priority order of the backtracking engine, and a parser [re_compile] for
      the syntax the tag formats use.
    - [out.warn] appends a line to a log that is returned with the value. *)

From Stdlib Require Import Ascii String.
From Stdlib Require Import List Bool Arith Lia NArith Permutation Sorted.
From Stdlib Require Import DecimalString Decimal DecimalN.
Import ListNotations.

Local Open Scope list_scope.

(** ** Python strings *)

Definition str := list ascii.

Definition lit (s : string) : str := list_ascii_of_string s.
Arguments lit s%_string.

Definition chr_eqb (a b : ascii) : bool := Ascii.eqb a b.
Arguments chr_eqb : simpl never.

Fixpoint str_eqb (a b : str) : bool :=
  match a, b with
  | [], [] => true
  | x :: a', y :: b' => chr_eqb x y && str_eqb a' b'
  | _, _ => false
  end.

(** [s.startswith(p)] *)
Fixpoint startswith (p s : str) : bool :=
  match p, s with
  | [], _ => true
  | x :: p', y :: s' => chr_eqb x y && startswith p' s'
  | _ :: _, [] => false
  end.

(** [str.replace(old, new)]: every non-overlapping occurrence of [old], found
    from the left, is replaced by [new].  [skip] counts the characters of an
    occurrence that remain to be dropped. *)
Fixpoint replace_from (old new : str) (skip : nat) (s : str) : str :=
  match s with
  | [] => []
  | c :: tl =>
      match skip with
      | S k => replace_from old new k tl
      | O =>
          if startswith old s
          then new ++ replace_from old new (length old - 1) tl
          else c :: replace_from old new 0 tl
      end
  end.

(** With an empty [old], Python inserts [new] before every character and at
    the end. *)
Definition replace (old new s : str) : str :=
  match old with
  | [] => new ++ flat_map (fun c => c :: new) s
  | _ :: _ => replace_from old new 0 s
  end.

(** ** Exceptions *)

Inductive exn : Type :=
| InvalidVersion
| ReError
| KeyError (key : str)
| TypeError.

Inductive result (A : Type) : Type :=
| Ok (a : A)
| Raise (e : exn).
Arguments Ok {A} a.
Arguments Raise {A} e.

Definition bind {A B : Type} (x : result A) (f : A -> result B) : result B :=
  match x with
  | Ok a => f a
  | Raise e => Raise e
  end.

Notation "x <- c ;; k" := (bind c (fun x => k))
  (at level 61, c at next level, right associativity).

Fixpoint mapM {A B : Type} (f : A -> result B) (l : list A) : result (list B) :=
  match l with
  | [] => Ok []
  | a :: l' => b <- f a ;; bs <- mapM f l' ;; Ok (b :: bs)
  end.

(** ** Regular expressions *)

Module Re.

(** An item of a character class. *)
Inductive citem : Type :=
| IChar (c : ascii)
| IRange (lo hi : ascii)
| IDigit
| IWord
| ISpace
| INotDigit
| INotWord
| INotSpace.

Inductive regex : Type :=
| Eps
| Chr (c : ascii)
| Any                                   (* [.]: any character but a newline *)
| Cls (neg : bool) (items : list citem) (* [\d], [\w], [[...]], [[^...]] *)
| Bol                                   (* [^] *)
| Eol                                   (* [$] *)
| Seq (r1 r2 : regex)
| Alt (r1 r2 : regex)
| Star (greedy : bool) (r : regex)
| Plus (greedy : bool) (r : regex)
| Opt (greedy : bool) (r : regex)
| Grp (name : str) (r : regex).         (* [(?P<name>...)] *)

Definition newline : ascii := "010"%char.

Definition in_range (lo hi c : ascii) : bool :=
  (nat_of_ascii lo <=? nat_of_ascii c) && (nat_of_ascii c <=? nat_of_ascii hi).

Definition is_digit (c : ascii) : bool := in_range "0" "9" c.

(** The letters, digits and underscore of ASCII: the characters of a name. *)
Definition is_ascii_word (c : ascii) : bool :=
  in_range "a" "z" c || in_range "A" "Z" c || is_digit c || chr_eqb c "_".

(** [\w] on text: the alphanumeric characters and the underscore.  A
    character stands for the code point of its number, so that beyond ASCII
    these are the letters and numbers of Latin-1. *)
Definition is_word (c : ascii) : bool :=
  is_ascii_word c ||
  chr_eqb c "170" || in_range "178" "179" c || chr_eqb c "181" ||
  in_range "185" "186" c || in_range "188" "190" c ||
  in_range "192" "214" c || in_range "216" "246" c || in_range "248" "255" c.

(** [\s] on text. *)
Definition is_space (c : ascii) : bool :=
  in_range "009" "013" c || in_range "028" "032" c || chr_eqb c "133" ||
  chr_eqb c "160".

Definition item_matches (i : citem) (c : ascii) : bool :=
  match i with
  | IChar x => chr_eqb x c
  | IRange lo hi => in_range lo hi c
  | IDigit => is_digit c
  | IWord => is_word c
  | ISpace => is_space c
  | INotDigit => negb (is_digit c)
  | INotWord => negb (is_word c)
  | INotSpace => negb (is_space c)
  end.

Definition cls_matches (neg : bool) (items : list citem) (c : ascii) : bool :=
  xorb neg (existsb (fun i => item_matches i c) items).

(** The text captured by the named groups that took part in a match, the latest
    capture of a name first. *)
Definition groups := list (str * str).

Fixpoint lookup {V : Type} (k : str) (d : list (str * V)) : option V :=
  match d with
  | [] => None
  | (k', v) :: d' => if str_eqb k k' then Some v else lookup k d'
  end.

(** A successful path of the matcher: what is left of the subject and the
    captures made on the way. *)
Definition path := (str * groups)%type.

(** The repetition of [step].  After a round that consumes something the
    repetition goes on; a round that consumes nothing is taken and ends it, so
    the length of the subject bounds the number of rounds that go on.  A greedy
    repetition prefers a further round to stopping, a lazy one prefers to
    stop. *)
Fixpoint iterate (step : bool -> str -> groups -> list path) (greedy : bool)
    (fuel : nat) (bol : bool) (s : str) (g : groups) : list path :=
  match fuel with
  | O => [(s, g)]
  | S fuel' =>
      let more :=
        flat_map (fun p : path =>
                    if length (fst p) <? length s
                    then iterate step greedy fuel' false (fst p) (snd p)
                    else [p])
                 (step bol s g) in
      if greedy then more ++ [(s, g)] else (s, g) :: more
  end.

(** [run r bol s g] lists the ways [r] matches a prefix of [s], in the order in
    which a backtracking engine tries them.  [bol] tells whether [s] starts at
    the beginning of the subject. *)
Fixpoint run (r : regex) (bol : bool) (s : str) (g : groups) : list path :=
  match r with
  | Eps => [(s, g)]
  | Chr c =>
      match s with
      | x :: s' => if chr_eqb c x then [(s', g)] else []
      | [] => []
      end
  | Any =>
      match s with
      | x :: s' => if chr_eqb x newline then [] else [(s', g)]
      | [] => []
      end
  | Cls neg items =>
      match s with
      | x :: s' => if cls_matches neg items x then [(s', g)] else []
      | [] => []
      end
  | Bol => if bol then [(s, g)] else []
  | Eol =>
      match s with
      | [] => [(s, g)]
      | [x] => if chr_eqb x newline then [(s, g)] else []
      | _ => []
      end
  | Seq r1 r2 =>
      flat_map (fun p : path =>
                  run r2 (bol && (length (fst p) =? length s)) (fst p) (snd p))
               (run r1 bol s g)
  | Alt r1 r2 => run r1 bol s g ++ run r2 bol s g
  | Star greedy r1 => iterate (run r1) greedy (S (length s)) bol s g
  | Plus greedy r1 =>
      flat_map (fun p : path =>
                  iterate (run r1) greedy (S (length (fst p)))
                          (bol && (length (fst p) =? length s)) (fst p) (snd p))
               (run r1 bol s g)
  | Opt greedy r1 =>
      if greedy then run r1 bol s g ++ [(s, g)] else (s, g) :: run r1 bol s g
  | Grp name r1 =>
      map (fun p : path =>
             (fst p, (name, firstn (length s - length (fst p)) s) :: snd p))
          (run r1 bol s g)
  end.

(** The names of the groups of a pattern, in the order of their opening. *)
Fixpoint names (r : regex) : list str :=
  match r with
  | Eps | Chr _ | Any | Cls _ _ | Bol | Eol => []
  | Seq r1 r2 | Alt r1 r2 => names r1 ++ names r2
  | Star _ r1 | Plus _ r1 | Opt _ r1 => names r1
  | Grp name r1 => name :: names r1
  end.

(** A match object: [group(0)], the span, the captures and the names that
    [groupdict()] lists. *)
Record Match : Type := mkMatch {
  m_start : nat;
  m_end : nat;
  group0 : str;
  m_groups : groups;
  m_names : list str
}.

(** [m.group(name)] for a name of the pattern: [None] when the group took no
    part in the match. *)
Definition group (m : Match) (name : str) : option str :=
  lookup name (m_groups m).

(** [m.groupdict()] *)
Definition groupdict (m : Match) : list (str * option str) :=
  map (fun n => (n, group m n)) (m_names m).

Definition mk_match (r : regex) (start : nat) (s : str) (p : path) : Match :=
  let n := length s - length (fst p) in
  mkMatch start (start + n) (firstn n s) (snd p) (names r).

(** [pattern.match(s)]: the first path from the start of [s]. *)
Definition re_match (r : regex) (s : str) : option Match :=
  match run r true s [] with
  | p :: _ => Some (mk_match r 0 s p)
  | [] => None
  end.

(** [pattern.fullmatch(s)]: the first path that consumes [s]. *)
Definition re_fullmatch (r : regex) (s : str) : option Match :=
  match filter (fun p : path => length (fst p) =? 0) (run r true s []) with
  | p :: _ => Some (mk_match r 0 s p)
  | [] => None
  end.

(** The first path at position [pos] of the subject; after an empty match the
    scanner asks for a path that consumes something ([must_advance]). *)
Definition match_at (r : regex) (pos : nat) (must_advance : bool) (s : str)
  : option path :=
  let ok (p : path) :=
    if must_advance then length (fst p) <? length s else true in
  match filter ok (run r (pos =? 0) s []) with
  | p :: _ => Some p
  | [] => None
  end.

(** The matches that start at position [pos], and how many characters the
    scanner then passes over beyond the next one.  After an empty match the
    scanner tries the same position once more, asking for a match that
    consumes something. *)
Definition matches_here (r : regex) (pos : nat) (s : str)
  : list Match * nat :=
  match match_at r pos false s with
  | None => ([], 0)
  | Some p =>
      match length s - length (fst p) with
      | S k => ([mk_match r pos s p], k)
      | O =>
          match match_at r pos true s with
          | Some p' =>
              ([mk_match r pos s p; mk_match r pos s p'],
               length s - length (fst p') - 1)
          | None => ([mk_match r pos s p], 0)
          end
      end
  end.

(** [list(pattern.finditer(txt))]: the scanner looks for the leftmost match
    from the current position and resumes at its end.  [skip] counts the
    characters of the last match that are still to be passed over. *)
Fixpoint scan (r : regex) (pos : nat) (skip : nat) (s : str) : list Match :=
  match skip with
  | S k =>
      match s with
      | [] => []
      | _ :: s' => scan r (S pos) k s'
      end
  | O =>
      fst (matches_here r pos s) ++
      match s with
      | [] => []
      | _ :: s' => scan r (S pos) (snd (matches_here r pos s)) s'
      end
  end.

Definition finditer (r : regex) (txt : str) : list Match :=
  scan r 0 0 txt.

(** *** The parser of [re.compile]

    The syntax covered is the one the tag formats produce: literals, [.], [^],
    [$], [\A], the escapes [\d \w \s \D \W \S], the control characters
    [\n \t \r \f \v \a] and escaped punctuation, character classes with
    ranges, groups [(...)], [(?:...)] and [(?P<name>...)], alternation, and the
    quantifiers [* + ?] with their lazy forms.  A group without a name keeps no
    capture: the module reads captures by name only.  What [re.compile]
    refuses within this syntax is refused; so is the syntax beyond it, counted
    repetitions, word boundaries, look-around, back-references and flags
    among it. *)

Definition is_quantifier (c : ascii) : bool :=
  chr_eqb c "*" || chr_eqb c "+" || chr_eqb c "?".

Definition is_special (c : ascii) : bool :=
  is_quantifier c || chr_eqb c "(" || chr_eqb c ")" || chr_eqb c "|" ||
  chr_eqb c "[" || chr_eqb c "\" || chr_eqb c "." || chr_eqb c "^" ||
  chr_eqb c "$".

Definition mk_seq (r1 r2 : regex) : regex :=
  match r2 with
  | Eps => r1
  | _ => Seq r1 r2
  end.

(** The class or character an escape [\c] stands for; [inside] tells whether
    the escape is read inside a character class. *)
Definition escape_item (c : ascii) : option (bool * citem) :=
  if chr_eqb c "d" then Some (false, IDigit)
  else if chr_eqb c "D" then Some (true, IDigit)
  else if chr_eqb c "w" then Some (false, IWord)
  else if chr_eqb c "W" then Some (true, IWord)
  else if chr_eqb c "s" then Some (false, ISpace)
  else if chr_eqb c "S" then Some (true, ISpace)
  else if chr_eqb c "n" then Some (false, IChar newline)
  else if chr_eqb c "t" then Some (false, IChar "009")
  else if chr_eqb c "r" then Some (false, IChar "013")
  else if chr_eqb c "f" then Some (false, IChar "012")
  else if chr_eqb c "v" then Some (false, IChar "011")
  else if chr_eqb c "a" then Some (false, IChar "007")
  else if is_ascii_word c && negb (chr_eqb c "_") then None
  else Some (false, IChar c).

Definition escape_atom (c : ascii) : option regex :=
  match escape_item c with
  | Some (false, IChar x) => Some (Chr x)
  | Some (neg, i) => Some (Cls neg [i])
  | None => None
  end.

(** An escape inside a character class: [\b] is the backspace there, and the
    complement of a class of characters is an item of its own. *)
Definition class_escape (e : ascii) : option citem :=
  if chr_eqb e "b" then Some (IChar "008")
  else
    match escape_item e with
    | Some (true, IDigit) => Some INotDigit
    | Some (true, IWord) => Some INotWord
    | Some (true, ISpace) => Some INotSpace
    | Some (_, i) => Some i
    | None => None
    end.

(** The item that starts [s] in a character class, and the number of
    characters it takes. *)
Definition class_item (s : str) : option (citem * nat) :=
  match s with
  | c :: tl =>
      if chr_eqb c "\" then
        match tl with
        | e :: _ =>
            match class_escape e with
            | Some i => Some (i, 2)
            | None => None
            end
        | [] => None
        end
      else Some (IChar c, 1)
  | [] => None
  end.

(** The items of a character class up to its closing bracket, and the number
    of characters read.  [first] is set where a closing bracket still stands
    for itself.  A range runs between two characters, in their order: a class
    of characters at either end is refused. *)
Fixpoint parse_class (first : bool) (skip : nat) (s : str)
  : option (list citem * nat) :=
  match s with
  | [] => None
  | c :: tl =>
      let continue (i : citem) (k : nat) :=
        match parse_class false k tl with
        | Some (items, n) => Some (i :: items, S n)
        | None => None
        end in
      match skip with
      | S k =>
          match parse_class false k tl with
          | Some (items, n) => Some (items, S n)
          | None => None
          end
      | O =>
          if chr_eqb c "]" && negb first then Some ([], 1)
          else
            match class_item s with
            | Some (lo, n) =>
                match skipn (n - 1) tl with
                | d :: h :: rest =>
                    if chr_eqb d "-" && negb (chr_eqb h "]") then
                      match lo, class_item (h :: rest) with
                      | IChar a, Some (IChar b, m) =>
                          if nat_of_ascii b <? nat_of_ascii a then None
                          else continue (IRange a b) (n - 1 + 1 + m)
                      | _, _ => None
                      end
                    else continue lo (n - 1)
                | _ => continue lo (n - 1)
                end
            | None => None
            end
      end
  end.

(** The name of a group up to its closing [>]. *)
Fixpoint parse_name (s : str) : option (str * str) :=
  match s with
  | [] => None
  | c :: tl =>
      if chr_eqb c ">" then Some ([], tl)
      else if is_ascii_word c then
        match parse_name tl with
        | Some (n, rest) => Some (c :: n, rest)
        | None => None
        end
      else None
  end.

Definition valid_name (n : str) : bool :=
  match n with
  | [] => false
  | c :: _ => negb (is_digit c)
  end.

Fixpoint skip_digits (s : str) : str :=
  match s with
  | c :: tl => if is_digit c then skip_digits tl else s
  | [] => []
  end.

(** What follows a [{] makes a counted repetition of it: digits, a comma and
    digits, any of them left out, and a closing brace; [{}] alone is plain
    text. *)
Definition counted (tl : str) : bool :=
  match tl with
  | c :: _ =>
      if chr_eqb c "}" then false
      else
        let s1 := skip_digits tl in
        let s2 :=
          match s1 with
          | d :: s' => if chr_eqb d "," then skip_digits s' else s1
          | [] => s1
          end in
        match s2 with
        | e :: _ => chr_eqb e "}"
        | [] => false
        end
  | [] => false
  end.

(** A quantifier after an atom, with the mark of its lazy form.  A second
    quantifier is refused, and so is a counted repetition. *)
Definition parse_quant (r : regex) (s : str) : option (regex * str) :=
  let lazy_mark (mk : bool -> regex) (tl : str) : option (regex * str) :=
    match tl with
    | q :: tl' =>
        if chr_eqb q "?" then
          match tl' with
          | q' :: _ => if is_quantifier q' then None else Some (mk false, tl')
          | [] => Some (mk false, tl')
          end
        else if is_quantifier q then None
        else Some (mk true, tl)
    | [] => Some (mk true, tl)
    end in
  match s with
  | c :: tl =>
      if is_quantifier c then
        match r with
        | Bol | Eol => None
        | _ =>
            if chr_eqb c "*" then lazy_mark (fun g => Star g r) tl
            else if chr_eqb c "+" then lazy_mark (fun g => Plus g r) tl
            else lazy_mark (fun g => Opt g r) tl
        end
      else if chr_eqb c "{" then
        if counted tl then None else Some (r, s)
      else Some (r, s)
  | [] => Some (r, s)
  end.

Fixpoint parse_alt (fuel : nat) (s : str) : option (regex * str) :=
  match fuel with
  | O => None
  | S fuel' =>
      match parse_seq fuel' s with
      | Some (r1, rest) =>
          match rest with
          | c :: rest' =>
              if chr_eqb c "|" then
                match parse_alt fuel' rest' with
                | Some (r2, rest2) => Some (Alt r1 r2, rest2)
                | None => None
                end
              else Some (r1, rest)
          | [] => Some (r1, rest)
          end
      | None => None
      end
  end
with parse_seq (fuel : nat) (s : str) : option (regex * str) :=
  match fuel with
  | O => None
  | S fuel' =>
      match s with
      | [] => Some (Eps, s)
      | c :: _ =>
          if chr_eqb c ")" || chr_eqb c "|" then Some (Eps, s)
          else
            match parse_atom fuel' s with
            | Some (a, rest) =>
                match parse_quant a rest with
                | Some (a', rest') =>
                    match parse_seq fuel' rest' with
                    | Some (r, rest2) => Some (mk_seq a' r, rest2)
                    | None => None
                    end
                | None => None
                end
            | None => None
            end
      end
  end
with parse_atom (fuel : nat) (s : str) : option (regex * str) :=
  match fuel with
  | O => None
  | S fuel' =>
      let closing (wrap : regex -> regex) (body : str) :=
        match parse_alt fuel' body with
        | Some (r, c :: rest) =>
            if chr_eqb c ")" then Some (wrap r, rest) else None
        | _ => None
        end in
      match s with
      | [] => None
      | c :: tl =>
          if is_quantifier c then None
          else if chr_eqb c "." then Some (Any, tl)
          else if chr_eqb c "^" then Some (Bol, tl)
          else if chr_eqb c "$" then Some (Eol, tl)
          else if chr_eqb c "{" && counted tl then None
          else if chr_eqb c "\" then
            match tl with
            | e :: tl' =>
                if chr_eqb e "A" then Some (Bol, tl')
                else
                  match escape_atom e with
                  | Some r => Some (r, tl')
                  | None => None
                  end
            | [] => None
            end
          else if chr_eqb c "[" then
            match tl with
            | x :: tl' =>
                if chr_eqb x "^" then
                  match parse_class true 0 tl' with
                  | Some (items, n) => Some (Cls true items, skipn n tl')
                  | None => None
                  end
                else
                  match parse_class true 0 tl with
                  | Some (items, n) => Some (Cls false items, skipn n tl)
                  | None => None
                  end
            | [] => None
            end
          else if chr_eqb c "(" then
            match tl with
            | q :: tl' =>
                if chr_eqb q "?" then
                  match tl' with
                  | k :: tl2 =>
                      if chr_eqb k ":" then closing (fun r => r) tl2
                      else if chr_eqb k "P" then
                        match tl2 with
                        | lt :: tl3 =>
                            if chr_eqb lt "<" then
                              match parse_name tl3 with
                              | Some (n, body) =>
                                  if valid_name n
                                  then closing (fun r => Grp n r) body
                                  else None
                              | None => None
                              end
                            else None
                        | [] => None
                        end
                      else None
                  | [] => None
                  end
                else closing (fun r => r) tl
            | [] => None
            end
          else Some (Chr c, tl)
      end
  end.

Fixpoint nodup_names (l : list str) : bool :=
  match l with
  | [] => true
  | n :: l' => negb (existsb (str_eqb n) l') && nodup_names l'
  end.

(** [re.compile(source)]: [re.error] on a source that does not parse, that has
    an unbalanced parenthesis, or that defines a group name twice.  A source
    beyond the syntax covered has the same answer. *)
Definition re_compile (source : str) : result regex :=
  match parse_alt (4 * (length source + 1)) source with
  | Some (r, []) => if nodup_names (names r) then Ok r else Raise ReError
  | _ => Raise ReError
  end.

End Re.

(** ** [string.Template.safe_substitute] *)

Module Template.

Definition is_id_start (c : ascii) : bool :=
  Re.in_range "a" "z" c || Re.in_range "A" "Z" c || chr_eqb c "_".

Definition is_id_char (c : ascii) : bool := Re.is_ascii_word c.

Fixpoint take_id (s : str) : str :=
  match s with
  | c :: tl => if is_id_char c then c :: take_id tl else []
  | [] => []
  end.

(** The identifier that starts [s], if any. *)
Definition identifier (s : str) : option str :=
  match s with
  | c :: _ => if is_id_start c then Some (take_id s) else None
  | [] => None
  end.

(** What follows a delimiter [$]: the text that replaces the delimiter and
    what it introduces, and the number of characters read after it.  A name
    that the mapping lacks and an ill-formed delimiter stay as they are. *)
Definition token (mapping : list (str * str)) (tl : str) : str * nat :=
  match tl with
  | c :: tl' =>
      if chr_eqb c "$" then (["$"%char], 1)
      else
        match identifier tl with
        | Some id =>
            match Re.lookup id mapping with
            | Some v => (v, length id)
            | None => (["$"%char], 0)
            end
        | None =>
            if chr_eqb c "{" then
              match identifier tl' with
              | Some id =>
                  match skipn (length id) tl' with
                  | close :: _ =>
                      if chr_eqb close "}" then
                        match Re.lookup id mapping with
                        | Some v => (v, length id + 2)
                        | None => (["$"%char], 0)
                        end
                      else (["$"%char], 0)
                  | [] => (["$"%char], 0)
                  end
              | None => (["$"%char], 0)
              end
            else (["$"%char], 0)
        end
  | [] => (["$"%char], 0)
  end.

Fixpoint substitute_from (mapping : list (str * str)) (skip : nat) (s : str)
  : str :=
  match s with
  | [] => []
  | c :: tl =>
      match skip with
      | S k => substitute_from mapping k tl
      | O =>
          if chr_eqb c "$"
          then fst (token mapping tl) ++
               substitute_from mapping (snd (token mapping tl)) tl
          else c :: substitute_from mapping 0 tl
      end
  end.

Definition safe_substitute (template : str) (mapping : list (str * str))
  : str :=
  substitute_from mapping 0 template.

End Template.

(** ** Versions and tags *)

(** The interface of a version scheme, as [TagRules] consumes it:
    [scheme(version)] builds a version from a string and raises
    [InvalidVersion] on a string it does not parse; [scheme.parser.pattern] is
    the source of its regular expression; a version has a [release] triple, an
    optional [prerelease], [is_prerelease] and a string form. *)
Record VersionScheme : Type := {
  Version : Type;
  parser_pattern : str;
  scheme_call : option str -> result Version;
  release : Version -> N * N * N;
  prerelease : Version -> option str;
  is_prerelease : Version -> bool;
  version_str : Version -> str
}.

Record GitTag : Type := mkGitTag {
  name : str;
  rev : str;
  date : str
}.

(** An argument of type [str | GitTag]. *)
Inductive tag_arg : Type :=
| TagName (s : str)
| TagObj (t : GitTag).

Record TagRules : Type := {
  scheme : VersionScheme;
  tag_format : str;
  legacy_tag_formats : list str;
  ignored_tag_formats : list str;
  merge_prereleases : bool
}.

(** A version given as a string or as a version of the scheme. *)
Inductive version_arg (sch : VersionScheme) : Type :=
| VStr (s : str)
| VObj (v : Version sch).
Arguments VStr {sch} s.
Arguments VObj {sch} v.

(** Python values next to strings *)

(** [str(x)] for [x : str | None], as an f-string formats it. *)
Definition fmt (x : option str) : str :=
  match x with
  | Some s => s
  | None => lit "None"
  end.

(** The truth value of [x : str | None]. *)
Definition truthy (x : option str) : bool :=
  match x with
  | Some (_ :: _) => true
  | _ => false
  end.

(** [str(n)] for a non-negative integer. *)
Definition str_of_N (n : N) : str :=
  lit (NilZero.string_of_uint (N.to_uint n)).

(** [d.get(key)] on a [groupdict()]. *)
Definition dict_get (d : list (str * option str)) (key : str) : option str :=
  match Re.lookup key d with
  | Some v => v
  | None => None
  end.

(** [d[key]] on a [groupdict()]. *)
Definition dict_item (d : list (str * option str)) (key : str)
  : result (option str) :=
  match Re.lookup key d with
  | Some v => Ok v
  | None => Raise (KeyError key)
  end.

(** [key in d] *)
Definition dict_mem {V : Type} (d : list (str * V)) (key : str) : bool :=
  match Re.lookup key d with
  | Some _ => true
  | None => false
  end.

Definition is_some {A : Type} (x : option A) : bool :=
  match x with
  | Some _ => true
  | None => false
  end.

(** The first element of [l] that [f] maps to something: what [next] returns
    on a generator that filters on an assignment expression. *)
Fixpoint first_some {A B : Type} (f : A -> option B) (l : list A) : option B :=
  match l with
  | [] => None
  | a :: l' =>
      match f a with
      | Some b => Some b
      | None => first_some f l'
      end
  end.

(** ** [TagRules] *)

Section TagRules.

(** [commitizen.defaults.get_tag_regexes]: from the pattern of the scheme, the
    table that maps each placeholder to the regular expression of its field,
    in the order its items are iterated. *)
Variable get_tag_regexes : str -> list (str * str).

Definition _format_regex (self : TagRules) (tag_pattern : str) (star : bool)
  : str :=
  let tag_regexes := get_tag_regexes (parser_pattern (scheme self)) in
  let format_regex :=
    if star then replace (lit "*") (lit "(?:.*?)") tag_pattern
    else tag_pattern in
  fold_left (fun format_regex item =>
               replace (fst item) (snd item) format_regex)
            tag_regexes format_regex.

Definition version_regexes (self : TagRules) : result (list Re.regex) :=
  let tag_formats := tag_format self :: legacy_tag_formats self in
  mapM Re.re_compile (map (fun p => _format_regex self p false) tag_formats).

Definition ignored_regexes (self : TagRules) : result (list Re.regex) :=
  mapM Re.re_compile
       (map (fun p => _format_regex self p true) (ignored_tag_formats self)).

Definition tag_name (tag : tag_arg) : str :=
  match tag with
  | TagName s => s
  | TagObj t => name t
  end.

(** True if a given tag is a legit version tag *)
Definition is_version_tag (self : TagRules) (tag : tag_arg) : result bool :=
  regexes <- version_regexes self ;;
  Ok (existsb (fun regex => is_some (Re.re_match regex (tag_name tag)))
              regexes).

(** True if a given tag can be ignored *)
Definition is_ignored_tag (self : TagRules) (tag : tag_arg) : result bool :=
  regexes <- ignored_regexes self ;;
  Ok (existsb (fun regex => is_some (Re.re_match regex (tag_name tag)))
              regexes).

Definition warning (tag : GitTag) : str :=
  lit "InvalidVersion " ++ name tag ++
  lit " doesn't match any configured tag format".

(** The value comes with the lines given to [out.warn]. *)
Definition _select_tag (self : TagRules) (tag : GitTag) (warn : bool)
  : result (bool * list str) :=
  v <- is_version_tag self (TagName (name tag)) ;;
  if v then Ok (true, [])
  else if warn then
    i <- is_ignored_tag self (TagName (name tag)) ;;
    if negb i then Ok (false, [warning tag]) else Ok (false, [])
  else Ok (false, []).

(** Filter in version tags and warn on unexpected tags *)
Fixpoint get_version_tags (self : TagRules) (tags : list GitTag) (warn : bool)
  : result (list GitTag * list str) :=
  match tags with
  | [] => Ok ([], [])
  | tag :: tags' =>
      sel <- _select_tag self tag warn ;;
      rest <- get_version_tags self tags' warn ;;
      Ok (if fst sel then tag :: fst rest else fst rest, snd sel ++ snd rest)
  end.

Definition _version_string (m : Re.Match) : result (option str) :=
  if dict_mem (Re.groupdict m) (lit "version")
  then Ok (Re.group m (lit "version"))
  else
    let parts := Re.groupdict m in
    version <- dict_item parts (lit "major") ;;
    let version :=
      let minor := dict_get parts (lit "minor") in
      if truthy minor then Some (fmt version ++ lit "." ++ fmt minor)
      else version in
    let version :=
      let patch := dict_get parts (lit "patch") in
      if truthy patch then Some (fmt version ++ lit "." ++ fmt patch)
      else version in
    let version :=
      if truthy (dict_get parts (lit "prerelease"))
      then Some (fmt version ++ lit "-" ++
                 fmt (dict_get parts (lit "prerelease")))
      else version in
    let version :=
      if truthy (dict_get parts (lit "devrelease"))
      then Some (fmt version ++ fmt (dict_get parts (lit "devrelease")))
      else version in
    Ok version.

Definition extract_version (self : TagRules) (tag : GitTag)
  : result (Version (scheme self)) :=
  regexes <- version_regexes self ;;
  match first_some (fun regex => Re.re_fullmatch regex (name tag)) regexes with
  | None => Raise InvalidVersion
  | Some m =>
      version <- _version_string m ;;
      scheme_call (scheme self) version
  end.

(** Check if a tag should be included in the changelog *)
Definition include_in_changelog (self : TagRules) (tag : GitTag)
  : result bool :=
  match extract_version self tag with
  | Raise InvalidVersion => Ok false
  | Raise e => Raise e
  | Ok version =>
      if merge_prereleases self && is_prerelease (scheme self) version
      then Ok false
      else Ok true
  end.

Definition nonempty {A : Type} (l : list A) : option (list A) :=
  match l with
  | [] => None
  | _ :: _ => Some l
  end.

(** [matches[-1 if last else 0]] on a list that is not empty *)
Definition pick (last : bool) (m0 : Re.Match) (ms : list Re.Match)
  : Re.Match :=
  if last then List.last ms m0 else m0.

(** The end of [search_version], from the selected match on: the version
    read from its groups and the text matched, or [None] where a part of
    [major.minor.patch] is not a group of the pattern ([KeyError]). *)
Definition version_and_tag (m : Re.Match) : option (option str * str) :=
  if dict_mem (Re.groupdict m) (lit "version")
  then Some (Re.group m (lit "version"), Re.group0 m)
  else
    let parts := Re.groupdict m in
    match dict_item parts (lit "major"), dict_item parts (lit "minor"),
          dict_item parts (lit "patch") with
    | Ok major, Ok minor, Ok patch =>
        let version :=
          fmt major ++ lit "." ++ fmt minor ++ lit "." ++ fmt patch in
        let version :=
          if truthy (dict_get parts (lit "prerelease"))
          then version ++ lit "-" ++ fmt (dict_get parts (lit "prerelease"))
          else version in
        let version :=
          if truthy (dict_get parts (lit "devrelease"))
          then version ++ fmt (dict_get parts (lit "devrelease"))
          else version in
        Some (Some version, Re.group0 m)
    | _, _, _ => None
    end.

(** Search the first or last version tag occurrence in txt.
    Returns a 2-tuple (version, version_tag) if found *)
Definition search_version (self : TagRules) (txt : str) (last : bool)
  : result (option (option str * str)) :=
  regexes <- version_regexes self ;;
  match first_some (fun regex => nonempty (Re.finditer regex txt)) regexes with
  | None | Some [] => Ok None
  | Some (m0 :: ms) => Ok (version_and_tag (pick last m0 ms))
  end.

(** The tag and the software version might be different.
    That's why this function exists. *)
Definition normalize_tag (self : TagRules) (version : version_arg (scheme self))
    (tag_format_arg : option str) : result str :=
  version <- match version with
             | VStr s => scheme_call (scheme self) (Some s)
             | VObj v => Ok v
             end ;;
  let tag_format :=
    match tag_format_arg with
    | Some (c :: f) => c :: f
    | _ => tag_format self
    end in
  let '(major, minor, patch) := release (scheme self) version in
  let prerelease :=
    match prerelease (scheme self) version with
    | Some (c :: p) => c :: p
    | _ => []
    end in
  Ok (Template.safe_substitute tag_format
        [(lit "version", version_str (scheme self) version);
         (lit "major", str_of_N major);
         (lit "minor", str_of_N minor);
         (lit "patch", str_of_N patch);
         (lit "prerelease", prerelease)]).

Definition find_tag_for (self : TagRules) (tags : list GitTag)
    (version : version_arg (scheme self)) : result (option GitTag) :=
  version <- match version with
             | VStr s => scheme_call (scheme self) (Some s)
             | VObj v => Ok v
             end ;;
  possible_tags <- mapM (fun f => normalize_tag self (VObj version) (Some f))
                        (tag_format self :: legacy_tag_formats self) ;;
  Ok (find (fun t => existsb (str_eqb (name t)) possible_tags) tags).

End TagRules.

(** ** [Markdown] *)

Section Markdown.

Variable get_tag_regexes : str -> list (str * str).

(** The changelog format holds the tag rules of the configuration. *)
Record Markdown : Type := { tag_rules : TagRules }.

Definition RE_TITLE_source : str := lit "^(?P<level>#+) (?P<title>.*)$".

(** [RE_TITLE], compiled from [RE_TITLE_source] when the class is defined *)
Definition RE_TITLE : Re.regex :=
  Re.Seq Re.Bol
    (Re.Seq (Re.Grp (lit "level") (Re.Plus true (Re.Chr "#")))
       (Re.Seq (Re.Chr " ")
          (Re.Seq (Re.Grp (lit "title") (Re.Star true Re.Any)) Re.Eol))).

Definition parse_version_from_title (self : Markdown) (line : str)
  : result (option (option str * str)) :=
  match Re.re_match RE_TITLE line with
  | None => Ok None
  | Some m =>
      match Re.group m (lit "title") with
      | Some title =>
          search_version get_tag_regexes (tag_rules self) title false
      | None => Raise TypeError
      end
  end.

Definition parse_title_level (self : Markdown) (line : str)
  : result (option nat) :=
  match Re.re_match RE_TITLE line with
  | None => Ok None
  | Some m =>
      match Re.group m (lit "level") with
      | Some level => Ok (Some (length level))
      | None => Raise TypeError
      end
  end.

End Markdown.

(** ** A configuration to run the rules on *)

Module Example.

(** Modelled from the spec: [get_tag_regexes] of [commitizen.defaults] is not
    among the sources.  The table gives each placeholder of a tag format, in
    its plain and its braced form, the expression of its field: the pattern of
    the scheme for the full version, digits for the parts of the release, and
    optional suffixes for the pre-release and the development release. *)
Definition get_tag_regexes (version_regex : str) : list (str * str) :=
  let regexs :=
    [(lit "version", version_regex);
     (lit "major", lit "(?P<major>\d+)");
     (lit "minor", lit "(?P<minor>\d+)");
     (lit "patch", lit "(?P<patch>\d+)");
     (lit "prerelease", lit "(?P<prerelease>\w+\d+)?");
     (lit "devrelease", lit "(?P<devrelease>\.dev\d+)?")] in
  map (fun kv => (lit "$" ++ fst kv, snd kv)) regexs ++
  map (fun kv => (lit "${" ++ fst kv ++ lit "}", snd kv)) regexs.

(** Modelled from the spec: the version schemes of
    [commitizen.version_schemes] are not among the sources.  This scheme reads
    [major.minor.patch] with an optional [-prerelease], keeps the numbers as
    integers and writes them back in decimal. *)
Record version : Type := mkVersion {
  v_release : N * N * N;
  v_prerelease : option str
}.

Fixpoint digits (s : str) : str :=
  match s with
  | c :: tl => if Re.is_digit c then c :: digits tl else []
  | [] => []
  end.

Definition digit_value (c : ascii) : N :=
  N.of_nat (nat_of_ascii c - nat_of_ascii "0").

Definition number (ds : str) : N :=
  fold_left (fun n c => (10 * n + digit_value c)%N) ds 0%N.

(** A number at the start of [s] and what follows it. *)
Definition read_number (s : str) : option (N * str) :=
  match digits s with
  | [] => None
  | ds => Some (number ds, skipn (length ds) s)
  end.

Definition read_dot (s : str) : option str :=
  match s with
  | c :: tl => if chr_eqb c "." then Some tl else None
  | [] => None
  end.

Definition parse (s : str) : result version :=
  match read_number s with
  | Some (major, s1) =>
      match read_dot s1 with
      | Some s2 =>
          match read_number s2 with
          | Some (minor, s3) =>
              match read_dot s3 with
              | Some s4 =>
                  match read_number s4 with
                  | Some (patch, []) =>
                      Ok (mkVersion (major, minor, patch) None)
                  | Some (patch, c :: pre) =>
                      if chr_eqb c "-" && negb (length pre =? 0) &&
                         forallb Re.is_ascii_word pre
                      then Ok (mkVersion (major, minor, patch) (Some pre))
                      else Raise InvalidVersion
                  | None => Raise InvalidVersion
                  end
              | None => Raise InvalidVersion
              end
          | None => Raise InvalidVersion
          end
      | None => Raise InvalidVersion
      end
  | None => Raise InvalidVersion
  end.

Definition to_str (v : version) : str :=
  let '(major, minor, patch) := v_release v in
  str_of_N major ++ lit "." ++ str_of_N minor ++ lit "." ++ str_of_N patch ++
  match v_prerelease v with
  | Some pre => lit "-" ++ pre
  | None => []
  end.

Definition pattern : str :=
  lit "(?P<version>([0-9]+)\.([0-9]+)(?:\.([0-9]+))?(?:-([0-9A-Za-z-]+(?:\.[0-9A-Za-z-]+)*))?(?:\+[0-9A-Za-z.]+)?(\w+)?)".

Definition semver : VersionScheme := {|
  Version := version;
  parser_pattern := pattern;
  scheme_call := fun s => match s with
                          | Some s => parse s
                          | None => Raise TypeError
                          end;
  release := v_release;
  prerelease := v_prerelease;
  is_prerelease := fun v => is_some (v_prerelease v);
  version_str := to_str
|}.

Definition tag (n : string) : GitTag := mkGitTag (lit n) [] [].
Arguments tag n%_string.

(** The rules of the examples: tags [v1.2.3], the older [ver1.2.3] still
    read, and snapshots ignored. *)
Definition rules : TagRules := {|
  scheme := semver;
  tag_format := lit "v$version";
  legacy_tag_formats := [lit "ver$major.$minor.$patch"];
  ignored_tag_formats := [lit "snapshot-*"];
  merge_prereleases := true
|}.

End Example.

(** * Properties *)

(** ** Strings, lists and results *)

Lemma chr_eqb_eq (a b : ascii) : chr_eqb a b = true <-> a = b.
Proof. unfold chr_eqb. apply Ascii.eqb_eq. Qed.

Lemma chr_eqb_refl (a : ascii) : chr_eqb a a = true.
Proof. apply chr_eqb_eq. reflexivity. Qed.

Lemma chr_eqb_neq (a b : ascii) : chr_eqb a b = false <-> a <> b.
Proof. unfold chr_eqb. apply Ascii.eqb_neq. Qed.

Lemma chr_eqb_sym (a b : ascii) : chr_eqb a b = chr_eqb b a.
Proof. unfold chr_eqb. apply Ascii.eqb_sym. Qed.

Lemma str_eqb_eq (a b : str) : str_eqb a b = true <-> a = b.
Proof.
  revert b. induction a as [|x a IH]; intros [|y b]; simpl;
    try (split; [discriminate | discriminate]); try tauto.
  rewrite andb_true_iff, chr_eqb_eq, IH. split.
  - intros [-> ->]. reflexivity.
  - intros E. injection E as -> ->. auto.
Qed.

Lemma str_eqb_refl (a : str) : str_eqb a a = true.
Proof. apply str_eqb_eq. reflexivity. Qed.

Lemma str_eqb_neq (a b : str) : str_eqb a b = false <-> a <> b.
Proof.
  rewrite <- str_eqb_eq. destruct (str_eqb a b); split; congruence.
Qed.

Lemma startswith_app (p s : str) : startswith p (p ++ s) = true.
Proof. induction p as [|c p IH]; simpl; [|rewrite chr_eqb_refl]; auto. Qed.

Lemma startswith_prefix (p s : str) :
  startswith p s = true <-> exists rest, s = p ++ rest.
Proof.
  split.
  - revert s. induction p as [|c p IH]; intros s H; simpl in *.
    + exists s. reflexivity.
    + destruct s as [|y s]; [discriminate|].
      apply andb_true_iff in H as [Hc Hp]. apply chr_eqb_eq in Hc as ->.
      destruct (IH _ Hp) as [rest ->]. exists rest. reflexivity.
  - intros [rest ->]. apply startswith_app.
Qed.

Section FirstSome.

Context {A B : Type} (f : A -> option B).

Lemma first_some_none (l : list A) :
  first_some f l = None <-> Forall (fun a => f a = None) l.
Proof.
  induction l as [|a l IH]; simpl.
  - split; auto.
  - destruct (f a) eqn:E.
    + split; [discriminate|]. intros H. inversion H; congruence.
    + rewrite IH. split; intros H.
      * constructor; assumption.
      * inversion H; assumption.
Qed.

Lemma first_some_split (pre post : list A) (a : A) (b : B) :
  Forall (fun x => f x = None) pre -> f a = Some b ->
  first_some f (pre ++ a :: post) = Some b.
Proof.
  intros Hpre Ha. induction Hpre as [|x pre Hx _ IH]; simpl.
  - rewrite Ha. reflexivity.
  - rewrite Hx. exact IH.
Qed.

Lemma first_some_inv (l : list A) (b : B) :
  first_some f l = Some b ->
  exists pre a post,
    l = pre ++ a :: post /\ Forall (fun x => f x = None) pre /\ f a = Some b.
Proof.
  induction l as [|x l IH]; simpl; [discriminate|].
  destruct (f x) eqn:E.
  - intros H. injection H as <-. exists [], x, l. auto.
  - intros H. destruct (IH H) as (pre & a & post & -> & Hpre & Ha).
    exists (x :: pre), a, post. auto.
Qed.

End FirstSome.

Lemma mapM_Forall2 {A B : Type} (f : A -> result B) (l : list A)
    (bs : list B) :
  mapM f l = Ok bs <-> Forall2 (fun a b => f a = Ok b) l bs.
Proof.
  revert bs. induction l as [|a l IH]; intros bs; simpl.
  - split.
    + intros H. injection H as <-. constructor.
    + intros H. inversion H. reflexivity.
  - destruct (f a) as [b|e] eqn:E; simpl.
    + destruct (mapM f l) as [bs'|e] eqn:E'; simpl.
      * split.
        -- intros H. injection H as <-. constructor; [assumption|].
           apply IH. reflexivity.
        -- intros H. inversion H as [|? b0 ? bs0 Hb Hbs]; subst.
           apply IH in Hbs. congruence.
      * split; [discriminate|].
        intros H. inversion H as [|? b0 ? bs0 Hb Hbs]; subst.
        apply IH in Hbs. discriminate.
    + split; [discriminate|].
      intros H. inversion H; congruence.
Qed.

(** ** [str.replace] and the substitution of placeholders *)

Module Substitution.

Definition no_dollar (s : str) : bool :=
  forallb (fun c => negb (chr_eqb c "$")) s.

(** A placeholder: [$] and a body without [$]. *)
Definition key_ok (k : str) : bool :=
  match k with
  | c :: body => chr_eqb c "$" && no_dollar body
  | [] => false
  end.

(** No end of [b] starts [v] or starts with [v]: replacing some text by [v]
    next to what comes before [b] cannot make up [b]. *)
Fixpoint gluefree (b v : str) : bool :=
  match b with
  | [] => true
  | _ :: b' => negb (startswith b v) && negb (startswith v b) && gluefree b' v
  end.

Definition entry_eqb (e1 e2 : str * str) : bool :=
  str_eqb (fst e1) (fst e2) && str_eqb (snd e1) (snd e2).

(** A table whose placeholders do not interfere: every key is a placeholder,
    no expression has a [$], no key starts another, and no expression can make
    up the body of a key. *)
Definition table_ok (table : list (str * str)) : bool :=
  forallb (fun e => key_ok (fst e) && no_dollar (snd e)) table &&
  forallb (fun e1 =>
             forallb (fun e2 =>
                        (negb (startswith (fst e1) (fst e2)) ||
                         entry_eqb e1 e2) &&
                        gluefree (tl (fst e2)) (snd e1))
                     table)
          table.

(** The substitution of all the placeholders in one pass from the left. *)
Fixpoint expand_from (table : list (str * str)) (skip : nat) (s : str) : str :=
  match s with
  | [] => []
  | c :: tl =>
      match skip with
      | S k => expand_from table k tl
      | O =>
          match find (fun e => startswith (fst e) s) table with
          | Some e => snd e ++ expand_from table (length (fst e) - 1) tl
          | None => c :: expand_from table 0 tl
          end
      end
  end.

Definition expand (table : list (str * str)) (s : str) : str :=
  expand_from table 0 s.

(** The substitution of [_format_regex]: one [str.replace] per item of the
    table, in the order of the table. *)
Definition replace_all (table : list (str * str)) (s : str) : str :=
  fold_left (fun acc item => replace (fst item) (snd item) acc) table s.

Lemma replace_from_cons (old new : str) (c : ascii) (tl : str) :
  replace_from old new 0 (c :: tl) =
  if startswith old (c :: tl)
  then new ++ replace_from old new (length old - 1) tl
  else c :: replace_from old new 0 tl.
Proof. reflexivity. Qed.

Lemma expand_from_cons (table : list (str * str)) (c : ascii) (tl : str) :
  expand_from table 0 (c :: tl) =
  match find (fun e => startswith (fst e) (c :: tl)) table with
  | Some e => snd e ++ expand_from table (length (fst e) - 1) tl
  | None => c :: expand_from table 0 tl
  end.
Proof. reflexivity. Qed.

Lemma replace_from_skip (old new x y : str) :
  replace_from old new (length x) (x ++ y) = replace_from old new 0 y.
Proof.
  induction x as [|c x IH]; simpl; [|exact IH].
  destruct y; reflexivity.
Qed.

Lemma expand_from_skip (table : list (str * str)) (x y : str) :
  expand_from table (length x) (x ++ y) = expand_from table 0 y.
Proof.
  induction x as [|c x IH]; simpl; [|exact IH].
  destruct y; reflexivity.
Qed.

(** An occurrence at the start of the text is replaced, whatever follows. *)
Lemma replace_prefix (old new rest : str) :
  old <> [] ->
  replace old new (old ++ rest) = new ++ replace old new rest.
Proof.
  destruct old as [|c old]; [congruence|]. intros _. unfold replace.
  rewrite <- app_comm_cons, replace_from_cons, app_comm_cons.
  rewrite startswith_app.
  replace (length (c :: old) - 1) with (length old) by (simpl; lia).
  rewrite replace_from_skip. reflexivity.
Qed.

Lemma key_ok_inv (k : str) :
  key_ok k = true -> exists body, k = "$"%char :: body /\ no_dollar body = true.
Proof.
  destruct k as [|c body]; simpl; [discriminate|].
  intros H. apply andb_true_iff in H as [Hc Hb]. apply chr_eqb_eq in Hc.
  subst c. exists body. auto.
Qed.

Lemma startswith_key (k : str) (c : ascii) (tl : str) :
  key_ok k = true -> chr_eqb c "$" = false -> startswith k (c :: tl) = false.
Proof.
  intros Hk Hc. apply key_ok_inv in Hk as (body & -> & _). simpl.
  rewrite chr_eqb_sym, Hc. reflexivity.
Qed.

Lemma find_keys_none (table : list (str * str)) (c : ascii) (tl : str) :
  forallb (fun e => key_ok (fst e)) table = true ->
  chr_eqb c "$" = false ->
  find (fun e => startswith (fst e) (c :: tl)) table = None.
Proof.
  intros Ht Hc. induction table as [|e table IH]; [reflexivity|].
  simpl in Ht |- *. apply andb_true_iff in Ht as [He Ht].
  rewrite (startswith_key _ _ _ He Hc). auto.
Qed.

Lemma replace_from_no_dollar (k v x y : str) :
  key_ok k = true -> no_dollar x = true ->
  replace_from k v 0 (x ++ y) = x ++ replace_from k v 0 y.
Proof.
  intros Hk. induction x as [|c x IH]; intros Hx; [reflexivity|].
  simpl in Hx. apply andb_true_iff in Hx as [Hc Hx].
  apply negb_true_iff in Hc. rewrite <- !app_comm_cons, replace_from_cons.
  rewrite (startswith_key _ _ _ Hk Hc), IH by assumption. reflexivity.
Qed.

Lemma expand_from_no_dollar (table : list (str * str)) (x y : str) :
  forallb (fun e => key_ok (fst e)) table = true -> no_dollar x = true ->
  expand_from table 0 (x ++ y) = x ++ expand_from table 0 y.
Proof.
  intros Ht. induction x as [|c x IH]; intros Hx; [reflexivity|].
  simpl in Hx. apply andb_true_iff in Hx as [Hc Hx].
  apply negb_true_iff in Hc. rewrite <- !app_comm_cons, expand_from_cons.
  rewrite (find_keys_none _ _ _ Ht Hc), IH by assumption. reflexivity.
Qed.

Lemma startswith_app_inv (b v more : str) :
  startswith b (v ++ more) = true ->
  startswith b v = true \/ startswith v b = true.
Proof.
  revert v. induction b as [|y b IH]; intros v H; [left; reflexivity|].
  destruct v as [|x v]; [right; reflexivity|].
  simpl in H |- *. apply andb_true_iff in H as [Hc H].
  rewrite Hc. apply chr_eqb_eq in Hc. subst x. rewrite chr_eqb_refl. simpl.
  apply IH in H. exact H.
Qed.

(** Replacing [k] by [v] neither makes nor breaks a text [b] without [$] at
    the start, when [v] cannot make up an end of [b]. *)
Lemma startswith_replace (k v b : str) :
  key_ok k = true ->
  forall s, no_dollar b = true -> gluefree b v = true ->
    startswith b (replace_from k v 0 s) = startswith b s.
Proof.
  intros Hk s. revert b. induction s as [|c s IH]; intros b Hb Hg.
  - reflexivity.
  - destruct b as [|y b]; [reflexivity|].
    unfold no_dollar in Hb. cbn [forallb] in Hb. cbn [gluefree] in Hg.
    apply andb_true_iff in Hb as [Hy Hb]. fold (no_dollar b) in Hb.
    apply negb_true_iff in Hy.
    apply andb_true_iff in Hg as [Hg Hg']. apply andb_true_iff in Hg as [Hg1 Hg2].
    apply negb_true_iff in Hg1, Hg2.
    rewrite replace_from_cons. destruct (startswith k (c :: s)) eqn:Es.
    + destruct (key_ok_inv _ Hk) as (body & -> & _). simpl in Es.
      apply andb_true_iff in Es as [Ec _]. apply chr_eqb_eq in Ec. subst c.
      transitivity false.
      * destruct (startswith (y :: b) (v ++ _)) eqn:E; [|reflexivity].
        apply startswith_app_inv in E as [E|E]; congruence.
      * simpl. rewrite Hy. reflexivity.
    + simpl. rewrite IH by assumption. reflexivity.
Qed.

(** The conditions of [table_ok], one by one. *)
Definition independent (table : list (str * str)) : Prop :=
  (forall e, In e table -> key_ok (fst e) = true /\ no_dollar (snd e) = true) /\
  (forall e1 e2, In e1 table -> In e2 table ->
     (startswith (fst e1) (fst e2) = true -> e1 = e2) /\
     gluefree (tl (fst e2)) (snd e1) = true).

Lemma entry_eqb_eq (e1 e2 : str * str) : entry_eqb e1 e2 = true -> e1 = e2.
Proof.
  unfold entry_eqb. destruct e1, e2. simpl. intros H.
  apply andb_true_iff in H as [H1 H2].
  apply str_eqb_eq in H1, H2. congruence.
Qed.

Lemma table_ok_independent (table : list (str * str)) :
  table_ok table = true -> independent table.
Proof.
  unfold table_ok. intros H. apply andb_true_iff in H as [H1 H2].
  rewrite forallb_forall in H1, H2. split.
  - intros e He. apply andb_true_iff. auto.
  - intros e1 e2 H1' H2'. specialize (H2 e1 H1').
    rewrite forallb_forall in H2. specialize (H2 e2 H2').
    apply andb_true_iff in H2 as [Hp Hg]. split; [|exact Hg].
    intros Hs. rewrite Hs in Hp. simpl in Hp. apply entry_eqb_eq. exact Hp.
Qed.

Lemma independent_incl (t1 t2 : list (str * str)) :
  incl t1 t2 -> independent t2 -> independent t1.
Proof.
  intros Hi [H1 H2]. split.
  - intros e He. apply H1, Hi, He.
  - intros e1 e2 He1 He2. apply H2; apply Hi; assumption.
Qed.

Lemma independent_keys (table : list (str * str)) :
  independent table -> forallb (fun e => key_ok (fst e)) table = true.
Proof.
  intros [H _]. apply forallb_forall. intros e He. apply H, He.
Qed.

Lemma find_ext_in {A : Type} (f g : A -> bool) (l : list A) :
  (forall x, In x l -> f x = g x) -> find f l = find g l.
Proof.
  induction l as [|a l IH]; intros H; [reflexivity|]. simpl.
  rewrite <- (H a) by (left; reflexivity).
  destruct (f a); [reflexivity|]. apply IH. intros x Hx. apply H. right. exact Hx.
Qed.

Lemma expand_from_nil (s : str) : expand_from [] 0 s = s.
Proof. induction s as [|c s IH]; simpl; [|rewrite IH]; reflexivity. Qed.

(** One [str.replace] and then the expansion with the rest of the table is the
    expansion with the whole table. *)
Lemma expand_replace (k v : str) (table : list (str * str)) :
  independent ((k, v) :: table) ->
  forall n s, length s <= n ->
    expand_from table 0 (replace_from k v 0 s) =
    expand_from ((k, v) :: table) 0 s.
Proof.
  intros Hwf.
  assert (Hk : key_ok k = true)
    by (apply (proj1 Hwf (k, v)); left; reflexivity).
  assert (Hv : no_dollar v = true)
    by (apply (proj1 Hwf (k, v)); left; reflexivity).
  assert (Hkeys : forallb (fun e => key_ok (fst e)) table = true).
  { apply independent_keys. eapply independent_incl; [|exact Hwf].
    intros e He. right. exact He. }
  assert (Hkeys' : forallb (fun e => key_ok (fst e)) ((k, v) :: table) = true)
    by (apply independent_keys; exact Hwf).
  assert (Hglue : forall e, In e table -> gluefree (tl (fst e)) v = true).
  { intros e He.
    apply (proj2 Hwf (k, v) e); [left; reflexivity | right; exact He]. }
  destruct (key_ok_inv _ Hk) as (body & Ebody & Hbody).
  induction n as [|n IH]; intros s Hlen.
  - destruct s; [reflexivity | simpl in Hlen; lia].
  - destruct s as [|c tl]; [reflexivity|]. simpl in Hlen.
    rewrite replace_from_cons, (expand_from_cons ((k, v) :: table)).
    cbn [find fst snd]. destruct (startswith k (c :: tl)) eqn:Ek.
    + apply startswith_prefix in Ek as [rest E]. rewrite Ebody in E.
      injection E as -> ->. cbn [fst snd].
      replace (length k - 1) with (length body) by (rewrite Ebody; simpl; lia).
      rewrite replace_from_skip, expand_from_skip.
      rewrite expand_from_no_dollar by assumption.
      rewrite IH by (rewrite length_app in Hlen; lia). reflexivity.
    + rewrite expand_from_cons.
      rewrite (find_ext_in
                 (fun e => startswith (fst e) (c :: replace_from k v 0 tl))
                 (fun e => startswith (fst e) (c :: tl))).
      2:{ intros e He.
          assert (Hke : key_ok (fst e) = true).
          { rewrite forallb_forall in Hkeys. apply Hkeys, He. }
          destruct (key_ok_inv _ Hke) as (b & Eb & Hb).
          specialize (Hglue e He). rewrite Eb in Hglue |- *. simpl in Hglue.
          simpl. rewrite startswith_replace by assumption. reflexivity. }
      destruct (find _ table) as [e|] eqn:Ef.
      * apply find_some in Ef as [He Hs].
        assert (Hke : key_ok (fst e) = true).
        { rewrite forallb_forall in Hkeys. apply Hkeys, He. }
        destruct (key_ok_inv _ Hke) as (b & Eb & Hb).
        apply startswith_prefix in Hs as [rest E]. rewrite Eb in E.
        injection E as -> ->.
        replace (length (fst e) - 1) with (length b)
          by (rewrite Eb; simpl; lia).
        rewrite replace_from_no_dollar by assumption.
        rewrite !expand_from_skip.
        rewrite IH by (rewrite length_app in Hlen; lia). reflexivity.
      * rewrite IH by lia. reflexivity.
Qed.

(** The replacements of one item after the other come to the expansion in one
    pass. *)
Lemma replace_all_expand (table : list (str * str)) :
  independent table -> forall s, replace_all table s = expand table s.
Proof.
  unfold replace_all, expand.
  induction table as [|[k v] table IH]; intros Hwf s.
  - simpl. symmetry. apply expand_from_nil.
  - cbn [fold_left fst snd]. rewrite IH.
    2:{ eapply independent_incl; [|exact Hwf]. intros e He. right. exact He. }
    assert (Hk : key_ok k = true)
      by (apply (proj1 Hwf (k, v)); left; reflexivity).
    destruct (key_ok_inv _ Hk) as (body & -> & _). unfold replace.
    apply (expand_replace _ _ _ Hwf (length s)). lia.
Qed.

Lemma startswith_both (a b s : str) :
  startswith a s = true -> startswith b s = true ->
  startswith a b = true \/ startswith b a = true.
Proof.
  revert b s. induction a as [|x a IH]; intros b s Ha Hb; [left; reflexivity|].
  destruct b as [|y b]; [right; reflexivity|].
  destruct s as [|z s]; [discriminate|]. simpl in *.
  apply andb_true_iff in Ha as [Hx Ha]. apply andb_true_iff in Hb as [Hy Hb].
  apply chr_eqb_eq in Hx, Hy. subst x y. rewrite chr_eqb_refl. simpl.
  eapply IH; eassumption.
Qed.

Lemma find_unique {A : Type} (f : A -> bool) (l1 l2 : list A) :
  Permutation l1 l2 ->
  (forall x y, In x l1 -> In y l1 -> f x = true -> f y = true -> x = y) ->
  find f l1 = find f l2.
Proof.
  intros Hp Hu. destruct (find f l1) as [x|] eqn:E1.
  - apply find_some in E1 as [Hx Hfx].
    destruct (find f l2) as [y|] eqn:E2.
    + apply find_some in E2 as [Hy Hfy]. f_equal. apply Hu; auto.
      eapply Permutation_in; [apply Permutation_sym; exact Hp | exact Hy].
    + exfalso. eapply find_none in E2;
        [|eapply Permutation_in; [exact Hp | exact Hx]]. congruence.
  - destruct (find f l2) as [y|] eqn:E2; [|reflexivity].
    apply find_some in E2 as [Hy Hfy]. exfalso.
    eapply find_none in E1;
      [|eapply Permutation_in; [apply Permutation_sym; exact Hp | exact Hy]].
    congruence.
Qed.

(** The expansion does not depend on the order of the table. *)
Lemma expand_from_permutation (t1 t2 : list (str * str)) :
  Permutation t1 t2 -> independent t1 ->
  forall s skip, expand_from t1 skip s = expand_from t2 skip s.
Proof.
  intros Hp Hwf. induction s as [|c tl IH]; intros skip; [reflexivity|].
  destruct skip as [|skip]; [|apply IH].
  rewrite !expand_from_cons.
  rewrite (find_unique (fun e => startswith (fst e) (c :: tl)) t1 t2 Hp).
  - destruct (find _ t2); rewrite IH; reflexivity.
  - intros x y Hx Hy Hfx Hfy.
    destruct (startswith_both _ _ _ Hfx Hfy) as [H|H].
    + apply (proj2 Hwf x y Hx Hy). exact H.
    + symmetry. apply (proj2 Hwf y x Hy Hx). exact H.
Qed.

Lemma independent_permutation (t1 t2 : list (str * str)) :
  Permutation t1 t2 -> independent t1 -> independent t2.
Proof.
  intros Hp. apply independent_incl. intros e He.
  eapply Permutation_in; [apply Permutation_sym; exact Hp | exact He].
Qed.

(** The replacements come to the same in any order of the table. *)
Lemma replace_all_permutation (t1 t2 : list (str * str)) (s : str) :
  Permutation t1 t2 -> independent t1 ->
  replace_all t2 s = replace_all t1 s.
Proof.
  intros Hp Hwf.
  rewrite (replace_all_expand t1 Hwf).
  rewrite (replace_all_expand t2 (independent_permutation _ _ Hp Hwf)).
  unfold expand. symmetry. apply expand_from_permutation; assumption.
Qed.

(** A placeholder at the start of the text is substituted, whatever follows
    it: a name that goes on after the placeholder loses its start. *)
Lemma replace_all_prefix (table : list (str * str)) (k v rest : str) :
  independent table -> In (k, v) table ->
  replace_all table (k ++ rest) = v ++ replace_all table rest.
Proof.
  intros Hwf Hin. rewrite !(replace_all_expand table Hwf). unfold expand.
  assert (Hk : key_ok k = true) by (apply (proj1 Hwf (k, v)); exact Hin).
  destruct (key_ok_inv _ Hk) as (body & Ek & _). rewrite Ek.
  rewrite <- app_comm_cons, expand_from_cons, app_comm_cons, <- Ek.
  destruct (find _ table) as [e|] eqn:Ef.
  - apply find_some in Ef as [He Hs].
    assert (E : (k, v) = e).
    { destruct (startswith_both _ _ _ (startswith_app k rest) Hs) as [H|H].
      - apply (proj2 Hwf (k, v) e Hin He). exact H.
      - symmetry. apply (proj2 Hwf e (k, v) He Hin). exact H. }
    subst e. cbn [fst snd].
    replace (length k - 1) with (length body) by (rewrite Ek; simpl; lia).
    rewrite expand_from_skip. reflexivity.
  - exfalso. eapply find_none in Ef; [|exact Hin]. simpl in Ef.
    rewrite startswith_app in Ef. discriminate.
Qed.

(** A text without [$] has no placeholder to substitute. *)
Lemma replace_all_no_dollar (table : list (str * str)) (s : str) :
  independent table -> no_dollar s = true -> replace_all table s = s.
Proof.
  intros Hwf Hs. rewrite (replace_all_expand table Hwf). unfold expand.
  rewrite <- (app_nil_r s) at 1.
  rewrite expand_from_no_dollar by (auto using independent_keys).
  simpl. apply app_nil_r.
Qed.

End Substitution.

(** ** Templates *)

Module TemplateFacts.
Import Template Substitution.

Lemma substitute_from_skip (mapping : list (str * str)) (x y : str) :
  substitute_from mapping (length x) (x ++ y) = substitute_from mapping 0 y.
Proof.
  induction x as [|c x IH]; simpl; [|exact IH].
  destruct y; reflexivity.
Qed.

Lemma substitute_from_cons (mapping : list (str * str)) (c : ascii)
    (tl : str) :
  substitute_from mapping 0 (c :: tl) =
  if chr_eqb c "$"
  then fst (token mapping tl) ++
       substitute_from mapping (snd (token mapping tl)) tl
  else c :: substitute_from mapping 0 tl.
Proof. reflexivity. Qed.

(** Text without a delimiter stays as it is. *)
Lemma substitute_no_dollar (mapping : list (str * str)) (x y : str) :
  no_dollar x = true ->
  substitute_from mapping 0 (x ++ y) = x ++ substitute_from mapping 0 y.
Proof.
  induction x as [|c x IH]; intros Hx; [reflexivity|].
  unfold no_dollar in Hx. cbn [forallb] in Hx.
  apply andb_true_iff in Hx as [Hc Hx]. apply negb_true_iff in Hc.
  rewrite <- !app_comm_cons, substitute_from_cons, Hc, IH by exact Hx.
  reflexivity.
Qed.

(** Where the text that follows does not go on with the identifier. *)
Definition ends_identifier (s : str) : bool :=
  match s with
  | c :: _ => negb (is_id_char c)
  | [] => true
  end.

Lemma take_id_app (id rest : str) :
  forallb is_id_char id = true -> ends_identifier rest = true ->
  take_id (id ++ rest) = id.
Proof.
  intros Hid Hrest. induction id as [|c id IH].
  - destruct rest as [|c rest]; [reflexivity|]. simpl in *.
    apply negb_true_iff in Hrest. rewrite Hrest. reflexivity.
  - simpl in *. apply andb_true_iff in Hid as [Hc Hid].
    rewrite Hc, IH by assumption. reflexivity.
Qed.

Lemma take_id_fixed (s : str) : take_id s = s -> forallb is_id_char s = true.
Proof.
  induction s as [|x s IH]; [reflexivity|]. simpl.
  destruct (is_id_char x); [|discriminate].
  intros H. injection H as H. auto.
Qed.

(** A placeholder [$id] of the mapping gives way to its value. *)
Lemma substitute_placeholder (mapping : list (str * str)) (id v rest : str) :
  identifier id = Some id -> Re.lookup id mapping = Some v ->
  ends_identifier rest = true ->
  substitute_from mapping 0 ("$"%char :: id ++ rest) =
  v ++ substitute_from mapping 0 rest.
Proof.
  intros Hid Hv Hrest. rewrite substitute_from_cons, chr_eqb_refl.
  assert (Hid' : identifier (id ++ rest) = Some id /\
                 exists c tl, id = c :: tl /\ chr_eqb c "$" = false).
  { unfold identifier in *. destruct id as [|c id]; [discriminate|].
    rewrite <- app_comm_cons.
    destruct (is_id_start c) eqn:Ec; [|discriminate].
    injection Hid as Hid. split.
    - f_equal. change (c :: id ++ rest) with ((c :: id) ++ rest).
      apply take_id_app; [|exact Hrest].
      apply take_id_fixed. exact Hid.
    - exists c, id. split; [reflexivity|].
      destruct (chr_eqb c "$") eqn:E; [|reflexivity].
      apply chr_eqb_eq in E. subst c. discriminate. }
  destruct Hid' as (Hident & c & tl & -> & Hc).
  unfold token. rewrite <- app_comm_cons, Hc.
  rewrite app_comm_cons, Hident, Hv. cbn [fst snd].
  rewrite substitute_from_skip. reflexivity.
Qed.

End TemplateFacts.

(** ** The matcher *)

Module ReFacts.
Import Re.

(** A full match is a match from the start: [fullmatch] picks among the paths
    that [match] picks its first from. *)
Lemma fullmatch_match (r : regex) (s : str) (m : Match) :
  re_fullmatch r s = Some m -> exists m', re_match r s = Some m'.
Proof.
  unfold re_fullmatch, re_match.
  destruct (run r true s []) as [|p ps]; simpl; [discriminate|].
  intros _. eexists. reflexivity.
Qed.

(** A full match consumes the subject. *)
Lemma fullmatch_whole (r : regex) (s : str) (m : Match) :
  re_fullmatch r s = Some m ->
  group0 m = s /\ m_start m = 0 /\ m_end m = length s /\ m_names m = names r.
Proof.
  unfold re_fullmatch.
  destruct (filter _ (run r true s [])) as [|p ps] eqn:E; [discriminate|].
  intros H. injection H as <-.
  assert (Hin : In p (filter (fun p : path => length (fst p) =? 0)
                             (run r true s []))) by (rewrite E; left; auto).
  apply filter_In in Hin as [_ Hlen]. apply Nat.eqb_eq in Hlen.
  unfold mk_match; simpl. rewrite Hlen, Nat.sub_0_r, firstn_all. auto.
Qed.

Lemma match_names (r : regex) (s : str) (m : Match) :
  re_match r s = Some m -> m_names m = names r.
Proof.
  unfold re_match. destruct (run r true s []); [discriminate|].
  intros H. injection H as <-. reflexivity.
Qed.




(** What a path leaves is an end of the subject. *)
Definition suffix_paths (s : str) (ps : list path) : Prop :=
  forall p, In p ps -> exists x, s = x ++ fst p.

Lemma iterate_suffix (step : bool -> str -> groups -> list path)
    (greedy : bool) :
  (forall bol s g, suffix_paths s (step bol s g)) ->
  forall fuel bol s g, suffix_paths s (iterate step greedy fuel bol s g).
Proof.
  intros Hstep. induction fuel as [|fuel IH]; intros bol s g p Hin.
  - destruct Hin as [<-|[]]. exists []. reflexivity.
  - cbn [iterate] in Hin.
    assert (Hmore : forall q,
              In q (flat_map
                      (fun p0 : path =>
                         if length (fst p0) <? length s
                         then iterate step greedy fuel false (fst p0) (snd p0)
                         else [p0]) (step bol s g)) ->
              exists x, s = x ++ fst q).
    { intros q Hq. apply in_flat_map in Hq as (p0 & Hp0 & Hq).
      destruct (Hstep _ _ _ _ Hp0) as [x1 E1].
      destruct (length (fst p0) <? length s);
        [|destruct Hq as [<-|[]]; exists x1; exact E1].
      destruct (IH _ _ _ _ Hq) as [x2 E2].
      exists (x1 ++ x2). rewrite <- app_assoc, <- E2. exact E1. }
    destruct greedy.
    + apply in_app_or in Hin as [Hin|[<-|[]]]; [apply Hmore, Hin|].
      exists []. reflexivity.
    + destruct Hin as [<-|Hin]; [exists []; reflexivity | apply Hmore, Hin].
Qed.

Lemma run_suffix (r : regex) :
  forall bol s g, suffix_paths s (run r bol s g).
Proof.
  induction r as [|c| |neg items| | |r1 IH1 r2 IH2|r1 IH1 r2 IH2
                  |greedy r1 IH1|greedy r1 IH1|greedy r1 IH1|n r1 IH1];
    intros bol s g p Hin; cbn [run] in Hin.
  - destruct Hin as [<-|[]]. exists []. reflexivity.
  - destruct s as [|x s]; [destruct Hin|].
    destruct (chr_eqb c x); [|destruct Hin].
    destruct Hin as [<-|[]]. exists [x]. reflexivity.
  - destruct s as [|x s]; [destruct Hin|].
    destruct (chr_eqb x newline); [destruct Hin|].
    destruct Hin as [<-|[]]. exists [x]. reflexivity.
  - destruct s as [|x s]; [destruct Hin|].
    destruct (cls_matches neg items x); [|destruct Hin].
    destruct Hin as [<-|[]]. exists [x]. reflexivity.
  - destruct bol; [|destruct Hin]. destruct Hin as [<-|[]].
    exists []. reflexivity.
  - destruct s as [|x [|y s]].
    + destruct Hin as [<-|[]]. exists []. reflexivity.
    + destruct (chr_eqb x newline); [|destruct Hin].
      destruct Hin as [<-|[]]. exists []. reflexivity.
    + destruct Hin.
  - apply in_flat_map in Hin as (p1 & Hp1 & Hin).
    destruct (IH1 _ _ _ _ Hp1) as [x1 E1].
    destruct (IH2 _ _ _ _ Hin) as [x2 E2].
    exists (x1 ++ x2). rewrite <- app_assoc, <- E2. exact E1.
  - apply in_app_or in Hin as [Hin|Hin]; [eapply IH1 | eapply IH2]; eauto.
  - eapply iterate_suffix; [|exact Hin]. exact IH1.
  - apply in_flat_map in Hin as (p1 & Hp1 & Hin).
    destruct (IH1 _ _ _ _ Hp1) as [x1 E1].
    destruct (iterate_suffix (run r1) greedy IH1 _ _ _ _ _ Hin) as [x2 E2].
    exists (x1 ++ x2). rewrite <- app_assoc, <- E2. exact E1.
  - destruct greedy.
    + apply in_app_or in Hin as [Hin|[<-|[]]]; [eapply IH1; eauto|].
      exists []. reflexivity.
    + destruct Hin as [<-|Hin]; [exists []; reflexivity | eapply IH1; eauto].
  - apply in_map_iff in Hin as (p1 & <- & Hp1). cbn [fst].
    eapply IH1; eauto.
Qed.

(** The pattern of atoms in a row, as the parser builds it. *)
Definition sequence (atoms : list regex) : regex :=
  fold_right mk_seq Eps atoms.

Lemma run_mk_seq (a r : regex) (bol : bool) (s : str) (g : groups) :
  forall p, In p (run (mk_seq a r) bol s g) <-> In p (run (Seq a r) bol s g).
Proof.
  intros p. destruct r; try reflexivity. cbn [mk_seq run].
  rewrite in_flat_map. split.
  - intros H. exists p. split; [exact H|]. destruct p. left. reflexivity.
  - intros (q & Hq & [E|[]]). destruct q. cbn [fst snd] in E. subst p.
    exact Hq.
Qed.

Lemma names_mk_seq (a r : regex) : names (mk_seq a r) = names a ++ names r.
Proof. destruct r; try reflexivity. simpl. symmetry. apply app_nil_r. Qed.

Lemma names_sequence (atoms : list regex) :
  names (sequence atoms) = flat_map names atoms.
Proof.
  induction atoms as [|a atoms IH]; [reflexivity|].
  cbn [sequence fold_right flat_map]. rewrite names_mk_seq. f_equal. exact IH.
Qed.

(** Plain text at the start of a pattern is the start of what it matches. *)
Lemma run_literal (pre : str) (atoms : list regex) :
  forall bol s g p,
    In p (run (sequence (map Chr pre ++ atoms)) bol s g) ->
    exists s' bol', s = pre ++ s' /\ In p (run (sequence atoms) bol' s' g).
Proof.
  induction pre as [|c pre IH]; intros bol s g p Hin.
  - exists s, bol. split; [reflexivity | exact Hin].
  - cbn [map app sequence fold_right] in Hin. apply run_mk_seq in Hin.
    cbn [run] in Hin. apply in_flat_map in Hin as (q & Hq & Hin).
    destruct s as [|x s]; [destruct Hq|].
    destruct (chr_eqb c x) eqn:E; [|destruct Hq].
    apply chr_eqb_eq in E. subst x. destruct Hq as [<-|[]].
    cbn [fst snd] in Hin. apply IH in Hin as (s' & bol' & -> & Hin).
    exists s', bol'. split; [reflexivity | exact Hin].
Qed.

(** A pattern that is plain text around one group matches in full the texts
    that are this plain text around what the group captures. *)
Lemma fullmatch_around (pre post n : str) (rv : regex) (t : str) (m : Match) :
  re_fullmatch (sequence (map Chr pre ++ Grp n rv :: map Chr post)) t =
    Some m ->
  exists x, t = pre ++ x ++ post /\ group m n = Some x.
Proof.
  unfold re_fullmatch.
  destruct (filter _ _) as [|p ps] eqn:E; [discriminate|].
  intros H. injection H as <-.
  assert (Hin : In p (filter (fun p : path => length (fst p) =? 0)
    (run (sequence (map Chr pre ++ Grp n rv :: map Chr post)) true t [])))
    by (rewrite E; left; reflexivity).
  apply filter_In in Hin as [Hin Hlen]. apply Nat.eqb_eq in Hlen.
  apply run_literal in Hin as (s' & bol' & -> & Hin).
  cbn [sequence fold_right] in Hin. apply run_mk_seq in Hin.
  cbn [run] in Hin. apply in_flat_map in Hin as (q & Hq & Hin).
  apply in_map_iff in Hq as (q1 & <- & Hq1). cbn [fst snd] in Hin.
  destruct (run_suffix rv _ _ _ _ Hq1) as [x Ex].
  rewrite <- (app_nil_r (map Chr post)) in Hin.
  apply run_literal in Hin as (s3 & bol3 & E3 & Hin).
  destruct Hin as [<-|[]]. cbn [fst] in Hlen.
  destruct s3; [|discriminate]. rewrite app_nil_r in E3.
  exists x. split.
  - rewrite Ex, E3. reflexivity.
  - unfold group, mk_match. cbn [m_groups snd lookup].
    rewrite str_eqb_refl. f_equal.
    rewrite Ex, length_app, Nat.add_sub, firstn_app, firstn_all, Nat.sub_diag.
    simpl. apply app_nil_r.
Qed.



End ReFacts.

(** ** Tag rules *)

Section TagRulesFacts.

Variable get_tag_regexes : str -> list (str * str).
Variable self : TagRules.

(** The compiled patterns follow the formats: the primary format first, then
    the legacy formats in the order of the configuration. *)
Lemma version_regexes_order (regexes : list Re.regex) :
  version_regexes get_tag_regexes self = Ok regexes ->
  Forall2 (fun f r => Re.re_compile (_format_regex get_tag_regexes self f false) = Ok r)
          (tag_format self :: legacy_tag_formats self) regexes.
Proof.
  unfold version_regexes. intros H.
  apply mapM_Forall2 in H. remember (tag_format self :: _) as fs eqn:E.
  clear E. revert regexes H. induction fs as [|f fs IH]; simpl; intros rs H.
  - inversion H. constructor.
  - inversion H; subst. constructor; auto.
Qed.

(** Whether a tag is kept, and whether it is ignored, as booleans. *)
Definition selected (tag : GitTag) : bool :=
  match is_version_tag get_tag_regexes self (TagObj tag) with
  | Ok b => b
  | Raise _ => false
  end.

Definition ignored (tag : GitTag) : bool :=
  match is_ignored_tag get_tag_regexes self (TagObj tag) with
  | Ok b => b
  | Raise _ => false
  end.

(** The lines [get_version_tags] warns with. *)
Definition warnings (warn : bool) (tags : list GitTag) : list str :=
  flat_map (fun tag =>
              if warn && negb (selected tag) && negb (ignored tag)
              then [warning tag] else [])
           tags.

Lemma select_tag_value (tag : GitTag) (warn : bool)
    (regexes : list Re.regex) :
  version_regexes get_tag_regexes self = Ok regexes ->
  (warn = true -> exists ignores, ignored_regexes get_tag_regexes self = Ok ignores) ->
  _select_tag get_tag_regexes self tag warn =
  Ok (selected tag,
      if warn && negb (selected tag) && negb (ignored tag)
      then [warning tag] else []).
Proof.
  intros Hv Hi. unfold _select_tag, selected, ignored.
  unfold is_version_tag, is_ignored_tag. rewrite Hv. simpl.
  destruct (existsb _ regexes); simpl;
    [rewrite andb_false_r; reflexivity|].
  destruct warn; simpl; [|reflexivity].
  destruct (Hi eq_refl) as [ignores ->]. simpl.
  destruct (existsb _ ignores); reflexivity.
Qed.

Lemma get_version_tags_value (tags : list GitTag) (warn : bool)
    (regexes : list Re.regex) :
  version_regexes get_tag_regexes self = Ok regexes ->
  (warn = true -> exists ignores, ignored_regexes get_tag_regexes self = Ok ignores) ->
  get_version_tags get_tag_regexes self tags warn =
  Ok (filter selected tags, warnings warn tags).
Proof.
  intros Hv Hi. induction tags as [|tag tags IH]; simpl; [reflexivity|].
  rewrite (select_tag_value tag warn regexes Hv Hi), IH. simpl.
  destruct (selected tag); reflexivity.
Qed.

Lemma warning_inj (t1 t2 : GitTag) : warning t1 = warning t2 -> name t1 = name t2.
Proof.
  unfold warning. intros H. apply app_inv_head in H.
  apply app_inv_tail in H. exact H.
Qed.

Lemma selected_name (t1 t2 : GitTag) :
  name t1 = name t2 -> selected t1 = selected t2.
Proof.
  intros E. unfold selected, is_version_tag. simpl. rewrite E.
  reflexivity.
Qed.

Lemma ignored_name (t1 t2 : GitTag) :
  name t1 = name t2 -> ignored t1 = ignored t2.
Proof.
  intros E. unfold ignored, is_ignored_tag. simpl. rewrite E.
  reflexivity.
Qed.

(** C4: [get_version_tags] returns the tags for which [is_version_tag] is
    true, in the order of the input and as often as the input has them. *)
Theorem get_version_tags_filter (tags : list GitTag) (warn : bool)
    (regexes : list Re.regex) :
  version_regexes get_tag_regexes self = Ok regexes ->
  (warn = true -> exists ignores, ignored_regexes get_tag_regexes self = Ok ignores) ->
  (forall tag, selected tag = true <->
               is_version_tag get_tag_regexes self (TagObj tag) = Ok true) /\
  exists log,
    get_version_tags get_tag_regexes self tags warn = Ok (filter selected tags, log).
Proof.
  intros Hv Hi. split.
  - intros tag. unfold selected, is_version_tag. rewrite Hv. simpl.
    split; congruence.
  - exists (warnings warn tags). eapply get_version_tags_value; eassumption.
Qed.

(** C5: [get_version_tags] warns about a tag if and only if [warn] is set and
    the tag is neither a version tag nor an ignored tag.  The batch goes on
    after a warning, and an ignored tag is left out without a word. *)
Theorem get_version_tags_warnings (tags : list GitTag) (warn : bool)
    (regexes : list Re.regex) :
  version_regexes get_tag_regexes self = Ok regexes ->
  (warn = true -> exists ignores, ignored_regexes get_tag_regexes self = Ok ignores) ->
  exists kept log,
    get_version_tags get_tag_regexes self tags warn = Ok (kept, log) /\
    kept = filter selected tags /\
    log = warnings warn tags /\
    (forall tag, In tag tags ->
       (In (warning tag) log <->
        warn = true /\ is_version_tag get_tag_regexes self (TagObj tag) = Ok false /\
        is_ignored_tag get_tag_regexes self (TagObj tag) = Ok false)) /\
    (forall tag, In tag tags -> ignored tag = true ->
       ~ In (warning tag) log /\ (selected tag = false -> ~ In tag kept)).
Proof.
  intros Hv Hi. exists (filter selected tags), (warnings warn tags).
  split; [eapply get_version_tags_value; eassumption|].
  split; [reflexivity|]. split; [reflexivity|].
  assert (Hlog : forall tag, In (warning tag) (warnings warn tags) ->
            warn = true /\ selected tag = false /\ ignored tag = false).
  { intros tag H. unfold warnings in H. apply in_flat_map in H.
    destruct H as (t & _ & Ht).
    destruct warn; simpl in Ht; [|contradiction].
    destruct (selected t) eqn:Es; simpl in Ht; [contradiction|].
    destruct (ignored t) eqn:Ei; simpl in Ht; [contradiction|].
    destruct Ht as [Ht|[]]. apply warning_inj in Ht.
    rewrite <- (selected_name _ _ Ht), <- (ignored_name _ _ Ht). auto. }
  split.
  - intros tag Hin. split.
    + intros H. apply Hlog in H as (Hw & Hs & Hg). split; [assumption|].
      subst warn. destruct (Hi eq_refl) as [ignores Hig].
      unfold selected, ignored in *.
      unfold is_version_tag, is_ignored_tag in *.
      rewrite Hv in *. rewrite Hig in *. simpl in *. split; congruence.
    + intros (Hw & Hs & Hg). unfold warnings. apply in_flat_map.
      exists tag. split; [assumption|].
      unfold selected, ignored. rewrite Hw, Hs, Hg. simpl. auto.
  - intros tag Hin Hig. split.
    + intros H. apply Hlog in H as (_ & _ & Hg). congruence.
    + intros Hs H. apply filter_In in H as [_ H]. congruence.
Qed.

(** [include_in_changelog] answers false when [extract_version] raises
    [InvalidVersion], false when [merge_prereleases] is set and the version
    extracted is a pre-release, and true otherwise. *)
Theorem include_in_changelog_cases (tag : GitTag) :
  (extract_version get_tag_regexes self tag = Raise InvalidVersion ->
   include_in_changelog get_tag_regexes self tag = Ok false) /\
  (forall version, extract_version get_tag_regexes self tag = Ok version ->
     merge_prereleases self = true ->
     is_prerelease (scheme self) version = true ->
     include_in_changelog get_tag_regexes self tag = Ok false) /\
  (forall version, extract_version get_tag_regexes self tag = Ok version ->
     merge_prereleases self = false \/
     is_prerelease (scheme self) version = false ->
     include_in_changelog get_tag_regexes self tag = Ok true).
Proof.
  unfold include_in_changelog. repeat split.
  - intros ->. reflexivity.
  - intros version -> -> ->. reflexivity.
  - intros version -> [-> | ->]; [reflexivity|].
    rewrite andb_false_r. reflexivity.
Qed.

(** Whether [name] is a group of the pattern. *)
Definition has_group (r : Re.regex) (name : string) : bool :=
  existsb (str_eqb (lit name)) (Re.names r).

Lemma lookup_map_names {V : Type} (k : str) (f : str -> V) (l : list str) :
  Re.lookup k (map (fun n => (n, f n)) l) =
  if existsb (str_eqb k) l then Some (f k) else None.
Proof.
  induction l as [|n l IH]; simpl; [reflexivity|].
  destruct (str_eqb k n) eqn:E; simpl.
  - apply str_eqb_eq in E. subst. reflexivity.
  - exact IH.
Qed.

Lemma dict_mem_groupdict (m : Re.Match) (k : str) :
  dict_mem (Re.groupdict m) k = existsb (str_eqb k) (Re.m_names m).
Proof.
  unfold dict_mem, Re.groupdict. rewrite lookup_map_names.
  destruct (existsb _ _); reflexivity.
Qed.



(** The pattern that wins the search, with its matches: the first one, in the
    order of precedence, that matches somewhere in the text. *)
Definition winner (regexes : list Re.regex) (txt : str)
  : option (Re.regex * list Re.Match) :=
  first_some (fun r => match Re.finditer r txt with
                       | [] => None
                       | ms => Some (r, ms)
                       end)
             regexes.

Lemma winner_matches (regexes : list Re.regex) (txt : str) :
  first_some (fun r => nonempty (Re.finditer r txt)) regexes =
  option_map snd (winner regexes txt).
Proof.
  unfold winner. induction regexes as [|r rs IH]; simpl; [reflexivity|].
  destruct (Re.finditer r txt); simpl; [exact IH|reflexivity].
Qed.

Lemma winner_inv (regexes : list Re.regex) (txt : str) (r : Re.regex)
    (ms : list Re.Match) :
  winner regexes txt = Some (r, ms) ->
  ms = Re.finditer r txt /\ ms <> [] /\
  exists pre post, regexes = pre ++ r :: post /\
                   Forall (fun r' => Re.finditer r' txt = []) pre.
Proof.
  unfold winner. intros H. apply first_some_inv in H.
  destruct H as (pre & a & post & -> & Hpre & Ha).
  destruct (Re.finditer a txt) eqn:E; [discriminate|].
  injection Ha as <- <-. rewrite E. repeat split; [discriminate|].
  exists pre, post. split; [reflexivity|].
  eapply Forall_impl; [|exact Hpre]. simpl. intros r' Hr'.
  destruct (Re.finditer r' txt); [reflexivity|discriminate].
Qed.

Lemma winner_none (regexes : list Re.regex) (txt : str) :
  winner regexes txt = None <->
  Forall (fun r => Re.finditer r txt = []) regexes.
Proof.
  unfold winner. rewrite first_some_none. split; apply Forall_impl; intros r.
  - destruct (Re.finditer r txt); [reflexivity|discriminate].
  - intros ->. reflexivity.
Qed.

Lemma winner_split (pre post : list Re.regex) (r : Re.regex) (txt : str)
    (m0 : Re.Match) (ms : list Re.Match) :
  Forall (fun r' => Re.finditer r' txt = []) pre ->
  Re.finditer r txt = m0 :: ms ->
  winner (pre ++ r :: post) txt = Some (r, m0 :: ms).
Proof.
  intros Hpre Hr. unfold winner. apply first_some_split.
  - eapply Forall_impl; [|exact Hpre]. simpl. intros r' ->. reflexivity.
  - rewrite Hr. reflexivity.
Qed.

Lemma last_cons {A : Type} (l : list A) (a d : A) :
  List.last (a :: l) d = List.last l a.
Proof.
  revert a d. induction l as [|b l IH]; intros a d; [reflexivity|].
  change (List.last (a :: b :: l) d) with (List.last (b :: l) d).
  rewrite (IH b d). symmetry. apply IH.
Qed.

Lemma pick_last_In (m0 : Re.Match) (ms : list Re.Match) :
  In (List.last ms m0) (m0 :: ms).
Proof.
  revert m0. induction ms as [|m1 ms IH]; intros m0; [left; reflexivity|].
  right. rewrite last_cons. apply IH.
Qed.

(** [search_version] in terms of the winning pattern. *)
Lemma search_version_winner (txt : str) (last : bool)
    (regexes : list Re.regex) :
  version_regexes get_tag_regexes self = Ok regexes ->
  search_version get_tag_regexes self txt last =
  Ok match winner regexes txt with
     | Some (_, m0 :: ms) => version_and_tag (pick last m0 ms)
     | _ => None
     end.
Proof.
  intros Hv. unfold search_version. rewrite Hv. simpl.
  rewrite winner_matches.
  destruct (winner regexes txt) as [[r [|m0 ms]]|]; reflexivity.
Qed.

(** C2: [search_version] asks the patterns in the order of precedence, the
    primary format first and then the legacy formats as configured.  The first
    pattern with a match in the text decides, whatever the patterns after it
    would find, and the match taken is its first one, or its last one when
    [last] is set. *)
Theorem search_version_precedence (txt : str) (last : bool)
    (regexes : list Re.regex) :
  version_regexes get_tag_regexes self = Ok regexes ->
  Forall2 (fun f r =>
             Re.re_compile (_format_regex get_tag_regexes self f false) = Ok r)
          (tag_format self :: legacy_tag_formats self) regexes /\
  (forall pre r post m0 ms,
     regexes = pre ++ r :: post ->
     Forall (fun r' => Re.finditer r' txt = []) pre ->
     Re.finditer r txt = m0 :: ms ->
     search_version get_tag_regexes self txt last =
     Ok (version_and_tag
           (if last then List.last (m0 :: ms) m0 else hd m0 (m0 :: ms)))) /\
  (Forall (fun r => Re.finditer r txt = []) regexes ->
   search_version get_tag_regexes self txt last = Ok None).
Proof.
  intros Hv. split; [apply version_regexes_order; assumption|]. split.
  - intros pre r post m0 ms -> Hpre Hr.
    rewrite (search_version_winner txt last _ Hv).
    rewrite (winner_split pre post r txt m0 ms Hpre Hr).
    unfold pick. destruct last; [|reflexivity].
    destruct ms; reflexivity.
  - intros Hnone. rewrite (search_version_winner txt last _ Hv).
    apply winner_none in Hnone. rewrite Hnone. reflexivity.
Qed.





(** The first pattern that matches the whole name of the tag, with the
    match. *)
Definition full_match (regexes : list Re.regex) (tag : GitTag)
  : option Re.Match :=
  first_some (fun regex => Re.re_fullmatch regex (name tag)) regexes.

(** C3: [extract_version] wants a match of the whole name.  It tries the
    pattern of the primary format and then those of the legacy formats in
    their order, reads the version from the groups of the first that matches,
    and raises [InvalidVersion] if and only if no pattern matches the whole
    name or the scheme does not parse the string read. *)
Theorem extract_version_full_match (tag : GitTag) (regexes : list Re.regex) :
  version_regexes get_tag_regexes self = Ok regexes ->
  Forall2 (fun f r =>
             Re.re_compile (_format_regex get_tag_regexes self f false) = Ok r)
          (tag_format self :: legacy_tag_formats self) regexes /\
  (forall pre r post m,
     regexes = pre ++ r :: post ->
     Forall (fun r' => Re.re_fullmatch r' (name tag) = None) pre ->
     Re.re_fullmatch r (name tag) = Some m ->
     Re.group0 m = name tag /\ Re.m_end m = length (name tag) /\
     extract_version get_tag_regexes self tag =
     (version <- _version_string m ;; scheme_call (scheme self) version)) /\
  (extract_version get_tag_regexes self tag = Raise InvalidVersion <->
   Forall (fun r => Re.re_fullmatch r (name tag) = None) regexes \/
   exists m version,
     full_match regexes tag = Some m /\ _version_string m = Ok version /\
     scheme_call (scheme self) version = Raise InvalidVersion).
Proof.
  intros Hv. split; [apply version_regexes_order; assumption|].
  unfold extract_version. rewrite Hv. simpl. split.
  - intros pre r post m -> Hpre Hr.
    rewrite (first_some_split _ pre post r m Hpre Hr).
    destruct (ReFacts.fullmatch_whole r _ m Hr) as (H0 & _ & He & _). auto.
  - fold (full_match regexes tag).
    destruct (full_match regexes tag) as [m|] eqn:Ef.
    + split.
      * intros H. right. exists m.
        destruct (_version_string m) as [version|e] eqn:Es; simpl in H.
        -- exists version. auto.
        -- exfalso. unfold _version_string in Es.
           destruct (dict_mem _ _); [discriminate|].
           unfold dict_item in Es. destruct (Re.lookup _ _); simpl in Es.
           ++ discriminate.
           ++ congruence.
      * intros [H | (m' & version & Hm & Hs & Hp)].
        -- apply first_some_none in H. unfold full_match in Ef. congruence.
        -- injection Hm as <-. rewrite Hs. simpl. exact Hp.
    + split; [|reflexivity]. intros _. left.
      apply first_some_none. exact Ef.
Qed.

(** What [fullmatch] accepts, [match] accepts. *)
Lemma extract_version_is_version_tag (tag : GitTag)
    (version : Version (scheme self)) :
  extract_version get_tag_regexes self tag = Ok version ->
  is_version_tag get_tag_regexes self (TagObj tag) = Ok true.
Proof.
  unfold extract_version, is_version_tag.
  destruct (version_regexes get_tag_regexes self) as [regexes|e]; simpl;
    [|discriminate].
  destruct (first_some _ regexes) as [m|] eqn:Ef; [|discriminate].
  intros _. f_equal. apply first_some_inv in Ef.
  destruct Ef as (pre & r & post & -> & _ & Hr).
  apply existsb_exists. exists r. split.
  - apply in_or_app. right. left. reflexivity.
  - destruct (ReFacts.fullmatch_match r _ m Hr) as [m' ->]. reflexivity.
Qed.

End TagRulesFacts.

(** ** Markdown titles *)

Module MarkdownFacts.
Import Re.

(** The paths of a greedy [c+]: the longest run of [c] first. *)
Fixpoint plus_paths (c : ascii) (s : str) (g : groups) : list path :=
  match s with
  | x :: tl => if chr_eqb c x then plus_paths c tl g ++ [(tl, g)] else []
  | [] => []
  end.

Lemma iterate_chr (c : ascii) (g : groups) :
  forall fuel bol s, length s <= fuel ->
    iterate (run (Chr c)) true fuel bol s g = plus_paths c s g ++ [(s, g)].
Proof.
  induction fuel as [|fuel IH]; intros bol s Hlen.
  - destruct s; [reflexivity | simpl in Hlen; lia].
  - destruct s as [|x tl]; [reflexivity|].
    cbn [iterate plus_paths].
    change (run (Chr c) bol (x :: tl) g)
      with (if chr_eqb c x then [(tl, g)] else []).
    destruct (chr_eqb c x); [|reflexivity].
    cbn [flat_map fst snd]. simpl in Hlen.
    replace (length tl <? length (x :: tl)) with true
      by (symmetry; apply Nat.ltb_lt; simpl; lia).
    rewrite app_nil_r, IH by lia. reflexivity.
Qed.

Lemma run_plus_chr (c : ascii) (bol : bool) (s : str) (g : groups) :
  run (Plus true (Chr c)) bol s g = plus_paths c s g.
Proof.
  destruct s as [|x tl]; [reflexivity|].
  cbn [run plus_paths]. destruct (chr_eqb c x); [|reflexivity].
  cbn [flat_map fst snd]. rewrite app_nil_r. apply iterate_chr. lia.
Qed.

(** The number of [c] that [s] starts with. *)
Fixpoint leading (c : ascii) (s : str) : nat :=
  match s with
  | x :: tl => if chr_eqb c x then S (leading c tl) else 0
  | [] => 0
  end.

(** Of the paths of [c+], only the longest can go on where what follows does
    not start with [c]. *)
Lemma plus_paths_continue {B : Type} (c : ascii) (k : path -> list B)
    (g : groups) :
  (forall tl, k (c :: tl, g) = []) ->
  forall s,
    flat_map k (plus_paths c s g) =
    match leading c s with
    | O => []
    | S _ => k (skipn (leading c s) s, g)
    end.
Proof.
  intros Hk. induction s as [|x tl IH]; [reflexivity|].
  cbn [plus_paths leading]. destruct (chr_eqb c x) eqn:E; [|reflexivity].
  rewrite flat_map_app, IH. cbn [flat_map skipn]. rewrite app_nil_r.
  destruct tl as [|y tl']; [reflexivity|].
  cbn [leading] in *. destruct (chr_eqb c y) eqn:E'; [|reflexivity].
  apply chr_eqb_eq in E'. subst y. rewrite Hk, app_nil_r. reflexivity.
Qed.

(** What ends a line: nothing, or its newline. *)
Definition line_end (tail : str) : Prop := tail = [] \/ tail = [newline].

(** A greedy [.*] first takes all of the text up to the newline. *)
Lemma iterate_any (g : groups) (tail : str) :
  line_end tail ->
  forall fuel bol x, length (x ++ tail) <= fuel -> ~ In newline x ->
    exists l, iterate (run Any) true fuel bol (x ++ tail) g = (tail, g) :: l.
Proof.
  intros Htail.
  assert (Hstop : forall fuel bol,
             exists l, iterate (run Any) true fuel bol tail g = (tail, g) :: l).
  { intros fuel bol. destruct fuel as [|fuel]; [exists []; reflexivity|].
    destruct Htail as [-> | ->]; exists []; reflexivity. }
  induction fuel as [|fuel IH]; intros bol x Hlen Hnl.
  - destruct x; [apply Hstop | simpl in Hlen; lia].
  - destruct x as [|c x]; [apply Hstop|].
    rewrite <- app_comm_cons. cbn [iterate].
    change (run Any bol (c :: x ++ tail) g)
      with (if chr_eqb c newline then [] else [(x ++ tail, g)]).
    destruct (chr_eqb c newline) eqn:E.
    + apply chr_eqb_eq in E. exfalso. apply Hnl. left. auto.
    + cbn [flat_map fst snd]. simpl in Hlen.
      replace (length (x ++ tail) <? length (c :: x ++ tail)) with true
        by (symmetry; apply Nat.ltb_lt; simpl; lia).
      destruct (IH false x) as [l ->];
        [lia | intros H; apply Hnl; right; auto |].
      rewrite app_nil_r. eexists. reflexivity.
Qed.

(** [.] stops at a newline: what a path of [.*] leaves is at least what
    starts at the first newline. *)
Fixpoint from_newline (s : str) : str :=
  match s with
  | c :: tl => if chr_eqb c newline then s else from_newline tl
  | [] => []
  end.

Lemma iterate_any_stops (g : groups) (greedy : bool) :
  forall fuel bol s p,
    In p (iterate (run Any) greedy fuel bol s g) ->
    length (from_newline s) <= length (fst p).
Proof.
  assert (Hfrom : forall s, length (from_newline s) <= length s).
  { induction s as [|c s IH]; simpl; [lia|].
    destruct (chr_eqb c newline); simpl; lia. }
  induction fuel as [|fuel IH]; intros bol s p Hin.
  - destruct Hin as [<-|[]]. apply Hfrom.
  - cbn [iterate] in Hin.
    assert (Hmore : forall q,
              In q (flat_map
                      (fun p0 : path =>
                         if length (fst p0) <? length s
                         then iterate (run Any) greedy fuel false
                                      (fst p0) (snd p0)
                         else [p0]) (run Any bol s g)) ->
              length (from_newline s) <= length (fst q)).
    { intros q Hq. apply in_flat_map in Hq as (p0 & Hp0 & Hq).
      destruct s as [|c s]; [destruct Hp0|].
      change (run Any bol (c :: s) g)
        with (if chr_eqb c newline then [] else [(s, g)]) in Hp0.
      cbn [from_newline]. destruct (chr_eqb c newline); [destruct Hp0|].
      destruct Hp0 as [<-|[]]. cbn [fst snd] in Hq.
      destruct (length s <? length (c :: s));
        [|destruct Hq as [<-|[]]; apply Hfrom].
      apply IH in Hq. exact Hq. }
    destruct greedy.
    + apply in_app_or in Hin as [Hin|[<-|[]]]; [apply Hmore, Hin|apply Hfrom].
    + destruct Hin as [<-|Hin]; [apply Hfrom | apply Hmore, Hin].
Qed.

(** What the claim calls a heading: one or more [#], a space, and a title.
    The definition follows the words of the claim, not [RE_TITLE]. *)
Definition heading (line : str) : option (nat * str) :=
  match leading "#" line, skipn (leading "#" line) line with
  | S n, c :: title => if chr_eqb c " " then Some (S n, title) else None
  | _, _ => None
  end.

Lemma leading_le (c : ascii) (s : str) : leading c s <= length s.
Proof.
  induction s as [|x tl IH]; simpl; [lia|]. destruct (chr_eqb c x); lia.
Qed.

Lemma skipn_not_in {A : Type} (x : A) (n : nat) (l : list A) :
  ~ In x l -> ~ In x (skipn n l).
Proof.
  intros H Hin. apply H. rewrite <- (firstn_skipn n l).
  apply in_or_app. right. exact Hin.
Qed.

Lemma run_seq (r1 r2 : regex) (bol : bool) (s : str) (g : groups) :
  run (Seq r1 r2) bol s g =
  flat_map (fun p : path =>
              run r2 (bol && (length (fst p) =? length s)) (fst p) (snd p))
           (run r1 bol s g).
Proof. reflexivity. Qed.

Lemma run_grp (n : str) (r : regex) (bol : bool) (s : str) (g : groups) :
  run (Grp n r) bol s g =
  map (fun p : path =>
         (fst p, (n, firstn (length s - length (fst p)) s) :: snd p))
      (run r bol s g).
Proof. reflexivity. Qed.

Lemma run_star (greedy : bool) (r : regex) (bol : bool) (s : str)
    (g : groups) :
  run (Star greedy r) bol s g =
  iterate (run r) greedy (S (length s)) bol s g.
Proof. reflexivity. Qed.

Lemma run_chr (c : ascii) (bol : bool) (s : str) (g : groups) :
  run (Chr c) bol s g =
  match s with
  | x :: s' => if chr_eqb c x then [(s', g)] else []
  | [] => []
  end.
Proof. reflexivity. Qed.

Lemma leading_app (c : ascii) (body tail : str) :
  (forall x tl, tail = x :: tl -> x <> c) ->
  leading c (body ++ tail) = leading c body.
Proof.
  intros Htail. induction body as [|x body IH]; simpl.
  - destruct tail as [|y tail]; [reflexivity|]. simpl.
    destruct (chr_eqb c y) eqn:E; [|reflexivity].
    apply chr_eqb_eq in E. exfalso. eapply Htail; eauto.
  - rewrite IH. reflexivity.
Qed.

Lemma line_end_not (tail : str) :
  line_end tail -> forall x tl, tail = x :: tl -> x <> "#"%char.
Proof.
  intros [-> | ->] x tl E; [discriminate|].
  injection E as <- _. discriminate.
Qed.

(** The first path of [RE_TITLE] on a line: a text without a newline, with or
    without the newline that ends it. *)
Lemma run_title (body tail : str) :
  line_end tail -> ~ In newline body ->
  match heading body with
  | Some (n, title) =>
      exists l,
        run RE_TITLE true (body ++ tail) [] =
        (tail, [(lit "title", title); (lit "level", firstn n body)]) :: l
  | None => run RE_TITLE true (body ++ tail) [] = []
  end.
Proof.
  intros Htail Hnl. unfold RE_TITLE, heading. set (line := body ++ tail).
  rewrite run_seq. change (run Bol true line []) with [(line, @nil (str * str))].
  cbn [flat_map fst snd]. rewrite app_nil_r.
  rewrite run_seq, run_grp, run_plus_chr.
  rewrite flat_map_concat_map, map_map, <- flat_map_concat_map.
  cbn [fst snd].
  rewrite plus_paths_continue.
  2:{ intros tl. rewrite run_seq, run_chr. reflexivity. }
  assert (Hlead : leading "#" line = leading "#" body)
    by (apply leading_app, line_end_not, Htail).
  rewrite Hlead.
  destruct (leading "#" body) as [|n] eqn:En; [reflexivity|].
  rewrite <- En. pose proof (leading_le "#" body) as Hle.
  assert (Hskip : skipn (leading "#" body) line =
                  skipn (leading "#" body) body ++ tail).
  { unfold line. rewrite skipn_app.
    replace (leading "#" body - length body) with 0 by lia. reflexivity. }
  rewrite Hskip. set (rest := skipn (leading "#" body) body).
  assert (Hrest : ~ In newline rest) by (apply skipn_not_in; assumption).
  assert (Hlen : length line - length (rest ++ tail) = leading "#" body).
  { unfold line, rest. rewrite !length_app, length_skipn. lia. }
  assert (Hfirst : firstn (leading "#" body) line =
                   firstn (leading "#" body) body).
  { unfold line. rewrite firstn_app.
    replace (leading "#" body - length body) with 0 by lia.
    simpl. apply app_nil_r. }
  cbn [fst snd]. rewrite Hlen, Hfirst, run_seq, run_chr.
  destruct rest as [|c title].
  - simpl. destruct Htail as [-> | ->]; reflexivity.
  - rewrite <- app_comm_cons. destruct (chr_eqb " " c) eqn:Ec.
    + rewrite chr_eqb_eq in Ec. subst c. rewrite chr_eqb_refl.
      cbn [flat_map fst snd]. rewrite app_nil_r.
      rewrite run_seq, run_grp, run_star.
      assert (Htitle : ~ In newline title)
        by (intros H; apply Hrest; right; exact H).
      match goal with
      | |- context [iterate (run Any) true ?f ?b (title ++ tail) ?g] =>
          destruct (iterate_any g tail Htail f b title
                               (Nat.le_succ_diag_r _) Htitle)
            as [l ->]
      end.
      cbn [map flat_map fst snd].
      replace (length (title ++ tail) - length tail) with (length title)
        by (rewrite length_app; lia).
      rewrite firstn_app, firstn_all, Nat.sub_diag, firstn_O, app_nil_r.
      assert (Heol : forall bol g, run Eol bol tail g = [(tail, g)])
        by (intros bol g; destruct Htail as [-> | ->]; reflexivity).
      rewrite Heol. eexists. reflexivity.
    + assert (Ec' : chr_eqb c " " = false)
        by (apply chr_eqb_neq; apply chr_eqb_neq in Ec; congruence).
      rewrite Ec'. reflexivity.
Qed.

Lemma RE_TITLE_compiled : re_compile RE_TITLE_source = Ok RE_TITLE.
Proof. vm_compute. reflexivity. Qed.

Lemma leading_repeat (c x : ascii) (n : nat) (tl : str) :
  x <> c -> leading c (repeat c n ++ x :: tl) = n.
Proof.
  intros Hx. induction n as [|n IH]; simpl.
  - apply chr_eqb_neq in Hx. unfold chr_eqb in *.
    rewrite Ascii.eqb_sym, Hx. reflexivity.
  - rewrite chr_eqb_refl, IH. reflexivity.
Qed.

Lemma leading_split (c : ascii) (s : str) :
  s = repeat c (leading c s) ++ skipn (leading c s) s.
Proof.
  induction s as [|x tl IH]; [reflexivity|]. simpl.
  destruct (chr_eqb c x) eqn:E; [|reflexivity].
  apply chr_eqb_eq in E. subst x. simpl. f_equal. exact IH.
Qed.

Lemma skipn_repeat_app {A : Type} (x : A) (n : nat) (l : list A) :
  skipn n (repeat x n ++ l) = l.
Proof. induction n as [|n IH]; simpl; auto. Qed.

(** [heading] says what the claim says: the line is [n] times [#], with [n]
    at least one, then a space, then the title. *)
Lemma heading_shape (line : str) (n : nat) (title : str) :
  heading line = Some (n, title) <->
  1 <= n /\ line = repeat "#"%char n ++ " "%char :: title.
Proof.
  unfold heading. split.
  - destruct (leading "#" line) as [|k] eqn:Ek; [discriminate|].
    destruct (skipn (S k) line) as [|c t] eqn:Es; [discriminate|].
    destruct (chr_eqb c " ") eqn:Ec; [|discriminate].
    intros H. injection H as <- <-. apply chr_eqb_eq in Ec. subst c.
    split; [lia|]. rewrite <- Es, <- Ek. apply leading_split.
  - intros [Hn ->]. rewrite leading_repeat by discriminate.
    rewrite skipn_repeat_app, chr_eqb_refl.
    destruct n; [lia|reflexivity].
Qed.

Lemma heading_none (line : str) :
  heading line = None <->
  forall n title, 1 <= n -> line <> repeat "#"%char n ++ " "%char :: title.
Proof.
  split.
  - intros H n title Hn E.
    assert (heading line = Some (n, title)) by (apply heading_shape; auto).
    congruence.
  - intros H. destruct (heading line) as [[n title]|] eqn:E; [|reflexivity].
    apply heading_shape in E as [Hn E]. exfalso. exact (H n title Hn E).
Qed.

Lemma length_repeat_prefix {A : Type} (x : A) (n : nat) (l : list A) :
  length (firstn n (repeat x n ++ l)) = n.
Proof.
  rewrite length_firstn, length_app, repeat_length. lia.
Qed.

(** C10: on a line that is one or more [#], a space and a title,
    [parse_version_from_title] is [search_version] on the title and
    [parse_title_level] is the number of [#]; on any other line both return
    [None].  The line is given with or without the newline that ends it. *)
Theorem parse_title (get_tag_regexes : str -> list (str * str))
    (self : Markdown) (line body : str) :
  line = body \/ line = body ++ [newline] ->
  ~ In newline body ->
  (forall n title,
     1 <= n -> body = repeat "#"%char n ++ " "%char :: title ->
     parse_version_from_title get_tag_regexes self line =
     search_version get_tag_regexes (tag_rules self) title false /\
     parse_title_level self line = Ok (Some n)) /\
  ((forall n title,
      1 <= n -> body <> repeat "#"%char n ++ " "%char :: title) ->
   parse_version_from_title get_tag_regexes self line = Ok None /\
   parse_title_level self line = Ok None).
Proof.
  intros Hline Hnl.
  assert (Htail : exists tail, line_end tail /\ line = body ++ tail).
  { destruct Hline as [-> | ->].
    - exists []. split; [left; reflexivity | symmetry; apply app_nil_r].
    - exists [newline]. split; [right; reflexivity | reflexivity]. }
  destruct Htail as (tail & Htail & ->).
  pose proof (run_title body tail Htail Hnl) as Hrun.
  unfold parse_version_from_title, parse_title_level, re_match. split.
  - intros n title Hn E.
    assert (Hh : heading body = Some (n, title)) by (apply heading_shape; auto).
    rewrite Hh in Hrun. destruct Hrun as [l ->].
    unfold group, mk_match. cbn [m_groups snd].
    split; [reflexivity|].
    change (lookup (lit "level")
              [(lit "title", title); (lit "level", firstn n body)])
      with (Some (firstn n body)).
    rewrite E, length_repeat_prefix. reflexivity.
  - intros H. apply heading_none in H. rewrite H in Hrun. rewrite Hrun.
    split; reflexivity.
Qed.

Lemma from_newline_length (a b : str) (c : ascii) :
  2 <= length (from_newline (a ++ newline :: c :: b)).
Proof.
  induction a as [|x a IH]; simpl.
  - lia.
  - destruct (chr_eqb x newline); [|exact IH].
    simpl. rewrite length_app. simpl. lia.
Qed.

Lemma from_newline_leading (s : str) :
  from_newline (skipn (leading "#" s) s) = from_newline s.
Proof.
  induction s as [|x s IH]; [reflexivity|]. cbn [leading].
  destruct (chr_eqb "#" x) eqn:E; [|reflexivity].
  apply chr_eqb_eq in E. subst x. cbn [skipn from_newline].
  change (chr_eqb "#" newline) with false. cbn iota. exact IH.
Qed.

Lemma flat_map_nil {A B : Type} (f : A -> list B) (l : list A) :
  (forall a, In a l -> f a = []) -> flat_map f l = [].
Proof.
  induction l as [|a l IH]; intros H; [reflexivity|]. simpl.
  rewrite (H a) by (left; reflexivity). apply IH.
  intros x Hx. apply H. right. exact Hx.
Qed.

(** X14: a text with a newline before its end is no title: [.] does not pass
    the newline and [$] does not match before it, so both functions return
    [None]. *)
Lemma parse_title_multiline (get_tag_regexes : str -> list (str * str))
    (self : Markdown) (a b : str) (c : ascii) :
  parse_version_from_title get_tag_regexes self (a ++ newline :: c :: b) =
    Ok None /\
  parse_title_level self (a ++ newline :: c :: b) = Ok None.
Proof.
  set (line := a ++ newline :: c :: b).
  assert (Hrun : run RE_TITLE true line [] = []).
  { unfold RE_TITLE.
    rewrite run_seq.
    change (run Bol true line []) with [(line, @nil (str * str))].
    cbn [flat_map fst snd]. rewrite app_nil_r.
    rewrite run_seq, run_grp, run_plus_chr.
    rewrite flat_map_concat_map, map_map, <- flat_map_concat_map.
    cbn [fst snd]. rewrite plus_paths_continue.
    2:{ intros tl. rewrite run_seq, run_chr. reflexivity. }
    destruct (leading "#" line) as [|n] eqn:En; [reflexivity|].
    rewrite <- En. pose proof (from_newline_leading line) as Hfrom.
    pose proof (from_newline_length a b c) as Hlen. fold line in Hlen.
    rewrite <- Hfrom in Hlen. cbn [fst snd]. rewrite run_seq, run_chr.
    destruct (skipn (leading "#" line) line) as [|x title]; [reflexivity|].
    destruct (chr_eqb " " x) eqn:Ex; [|reflexivity].
    apply chr_eqb_eq in Ex. subst x.
    cbn [from_newline] in Hlen. change (chr_eqb " " newline) with false in Hlen.
    cbn iota in Hlen.
    cbn [flat_map fst snd]. rewrite app_nil_r.
    rewrite run_seq, run_grp, run_star.
    rewrite flat_map_concat_map, map_map, <- flat_map_concat_map.
    apply flat_map_nil. intros p Hp. cbn [fst snd].
    apply iterate_any_stops in Hp.
    destruct (fst p) as [|y [|z tl]]; simpl in Hp; try lia. reflexivity. }
  unfold parse_version_from_title, parse_title_level, re_match.
  rewrite Hrun. split; reflexivity.
Qed.

End MarkdownFacts.

(** ** Formats token by token *)

Module Tokens.
Import Substitution.

(** A tag format read token by token, each token with the part of the pattern
    that the format compiles to at its place: a plain character, which the
    pattern takes for itself; text that the pattern reads as syntax of regular
    expressions, as the [.] of [$major.$minor]; and a placeholder, with the
    expression of its group, which the table may make optional. *)
Inductive token : Type :=
| Lit (c : ascii)
| Raw (text : str) (atom : Re.regex)
| Field (name : str) (optional : bool) (body : Re.regex).

(** The text of a token in the format. *)
Definition source (t : token) : str :=
  match t with
  | Lit c => [c]
  | Raw text _ => text
  | Field n _ _ => "$"%char :: n
  end.

(** The part of the pattern a token stands for. *)
Definition atom (t : token) : Re.regex :=
  match t with
  | Lit c => Re.Chr c
  | Raw _ a => a
  | Field n optional body =>
      if optional then Re.Opt true (Re.Grp n body) else Re.Grp n body
  end.

Definition format_of (ts : list token) : str := flat_map source ts.

Definition pattern_of (ts : list token) : Re.regex :=
  ReFacts.sequence (map atom ts).

Definition field_names (ts : list token) : list str :=
  flat_map (fun t => match t with Field n _ _ => [n] | _ => [] end) ts.

Definition nameless (r : Re.regex) : bool :=
  match Re.names r with
  | [] => true
  | _ :: _ => false
  end.

Definition is_identifier (n : str) : bool :=
  match Template.identifier n with
  | Some id => str_eqb id n
  | None => false
  end.

(** A token before the tokens [rest]: text has no delimiter and no group of
    its own; the name of a placeholder is an identifier that no later
    placeholder has, its expression has no group within, and what follows it
    in the format does not go on with its name. *)
Definition token_ok (t : token) (rest : list token) : bool :=
  match t with
  | Lit c => negb (chr_eqb c "$")
  | Raw text a => no_dollar text && nameless a
  | Field n _ body =>
      is_identifier n && nameless body &&
      negb (existsb (str_eqb n) (field_names rest)) &&
      TemplateFacts.ends_identifier (format_of rest)
  end.

Fixpoint well_formed (ts : list token) : bool :=
  match ts with
  | [] => true
  | t :: rest => token_ok t rest && well_formed rest
  end.

(** What the captures [gs] of a match tell of the piece of the subject at a
    token: at a plain character the piece is this character, at a placeholder
    it is what the group captured, or nothing where an optional group took no
    part. *)
Definition reads (gs : Re.groups) (t : token) (piece : str) : Prop :=
  match t with
  | Lit c => piece = [c]
  | Raw _ _ => True
  | Field n optional _ =>
      Re.lookup n gs = Some piece \/
      (optional = true /\ Re.lookup n gs = None /\ piece = [])
  end.


(** The same, left open at the plain characters. *)
Definition kept (mapping : list (str * str)) (t : token) (piece : str)
  : Prop :=
  match t with
  | Lit _ => True
  | Raw text _ => piece = text
  | Field n _ _ => Re.lookup n mapping = Some piece
  end.










End Tokens.

(** ** Formats: patterns and round trips *)

Section Formats.

Import Substitution.

Variable get_tag_regexes : str -> list (str * str).
Variable self : TagRules.

Lemma format_regex_replace_all (p : str) (star : bool) :
  _format_regex get_tag_regexes self p star =
  replace_all (get_tag_regexes (parser_pattern (scheme self)))
              (if star then replace (lit "*") (lit "(?:.*?)") p else p).
Proof. reflexivity. Qed.

Lemma no_dollar_app (a b : str) :
  no_dollar (a ++ b) = no_dollar a && no_dollar b.
Proof. apply forallb_app. Qed.

Lemma no_dollar_replace_from (old new : str) :
  no_dollar new = true ->
  forall s skip, no_dollar s = true ->
    no_dollar (replace_from old new skip s) = true.
Proof.
  intros Hnew. induction s as [|c s IH]; intros skip Hs; [reflexivity|].
  unfold no_dollar in Hs. cbn [forallb] in Hs.
  apply andb_true_iff in Hs as [Hc Hs]. fold (no_dollar s) in Hs.
  destruct skip as [|skip]; [|apply IH; exact Hs].
  rewrite replace_from_cons. destruct (startswith old (c :: s)).
  - rewrite no_dollar_app, Hnew, IH by exact Hs. reflexivity.
  - unfold no_dollar. cbn [forallb]. rewrite Hc. apply IH. exact Hs.
Qed.

Lemma no_dollar_replace (old new s : str) :
  no_dollar new = true -> no_dollar s = true ->
  no_dollar (replace old new s) = true.
Proof.
  intros Hnew Hs. destruct old as [|c old].
  - unfold replace. rewrite no_dollar_app, Hnew. simpl.
    induction s as [|x s IH]; [reflexivity|].
    unfold no_dollar in Hs. cbn [forallb] in Hs.
    apply andb_true_iff in Hs as [Hx Hs].
    cbn [flat_map]. rewrite <- app_comm_cons. unfold no_dollar. cbn [forallb].
    rewrite Hx. change (no_dollar (new ++ flat_map (fun c => c :: new) s) = true).
    rewrite no_dollar_app, Hnew. apply IH. exact Hs.
  - apply no_dollar_replace_from; assumption.
Qed.

(** With the wildcard flag every [*] of the template gives
    way to [(?:.*?)] before the placeholders are substituted.  The
    placeholders are substituted by one [str.replace] after the other; for a
    table whose placeholders do not interfere ([table_ok]) the result does not
    depend on the order of the table, and a placeholder is substituted
    whatever follows it, so that a longer name that starts with a placeholder
    has this start replaced. *)
Theorem format_regex_substitution (p : str) :
  table_ok (get_tag_regexes (parser_pattern (scheme self))) = true ->
  _format_regex get_tag_regexes self p true =
    _format_regex get_tag_regexes self
                  (replace (lit "*") (lit "(?:.*?)") p) false /\
  (no_dollar p = true ->
   _format_regex get_tag_regexes self p true =
     replace (lit "*") (lit "(?:.*?)") p) /\
  (forall get_tag_regexes' star,
     Permutation (get_tag_regexes (parser_pattern (scheme self)))
                 (get_tag_regexes' (parser_pattern (scheme self))) ->
     _format_regex get_tag_regexes' self p star =
     _format_regex get_tag_regexes self p star) /\
  (forall k v rest,
     In (k, v) (get_tag_regexes (parser_pattern (scheme self))) ->
     p = k ++ rest ->
     _format_regex get_tag_regexes self p false =
     v ++ _format_regex get_tag_regexes self rest false).
Proof.
  intros Hok. apply table_ok_independent in Hok.
  split; [reflexivity|]. split; [|split].
  - intros Hp. rewrite format_regex_replace_all.
    apply replace_all_no_dollar; [exact Hok|].
    apply no_dollar_replace; [reflexivity | exact Hp].
  - intros gtr' star Hperm. rewrite !format_regex_replace_all.
    apply replace_all_permutation; assumption.
  - intros k v rest Hin ->. rewrite !format_regex_replace_all.
    apply replace_all_prefix; assumption.
Qed.

(** [extract_version] on a tag that the first pattern matches in full. *)
Lemma extract_version_primary (tag : GitTag) (r : Re.regex)
    (legacy : list Re.regex) (m : Re.Match) :
  version_regexes get_tag_regexes self = Ok (r :: legacy) ->
  Re.re_fullmatch r (name tag) = Some m ->
  extract_version get_tag_regexes self tag =
  (version <- _version_string m ;; scheme_call (scheme self) version).
Proof.
  intros Hv Hm. unfold extract_version. rewrite Hv. cbn [bind first_some].
  rewrite Hm. reflexivity.
Qed.

(** The version string of a match whose pattern has a group [version]. *)
Lemma version_string_group (r : Re.regex) (m : Re.Match) :
  Re.m_names m = Re.names r -> has_group r "version" = true ->
  _version_string m = Ok (Re.group m (lit "version")).
Proof.
  intros Hn Hgrp. unfold _version_string. rewrite dict_mem_groupdict, Hn.
  unfold has_group in Hgrp. rewrite Hgrp. reflexivity.
Qed.

(** [normalize_tag] on a format that is plain text around [$version]. *)
Lemma normalize_tag_version_format (pre post : str)
    (v : Version (scheme self)) :
  tag_format self = pre ++ lit "$version" ++ post ->
  no_dollar pre = true -> no_dollar post = true ->
  TemplateFacts.ends_identifier post = true ->
  normalize_tag self (VObj v) None =
  Ok (pre ++ version_str (scheme self) v ++ post).
Proof.
  intros Hfmt Hpre Hpost Hend. unfold normalize_tag. cbn [bind]. rewrite Hfmt.
  destruct (release (scheme self) v) as [[major minor] patch].
  f_equal. unfold Template.safe_substitute.
  rewrite TemplateFacts.substitute_no_dollar by exact Hpre.
  change (lit "$version" ++ post) with ("$"%char :: lit "version" ++ post).
  rewrite (TemplateFacts.substitute_placeholder _ (lit "version")
             (version_str (scheme self) v) post);
    [| reflexivity | reflexivity | exact Hend].
  rewrite <- (app_nil_r post) at 1.
  rewrite TemplateFacts.substitute_no_dollar by exact Hpost.
  cbn [Template.substitute_from]. rewrite app_nil_r. reflexivity.
Qed.

(** The fields [normalize_tag] hands to the template. *)
Definition fields (v : Version (scheme self)) : list (str * str) :=
  let '(major, minor, patch) := release (scheme self) v in
  let prerelease :=
    match prerelease (scheme self) v with
    | Some (c :: p) => c :: p
    | _ => []
    end in
  [(lit "version", version_str (scheme self) v);
   (lit "major", str_of_N major);
   (lit "minor", str_of_N minor);
   (lit "patch", str_of_N patch);
   (lit "prerelease", prerelease)].



(** X15: where the primary format is text without a delimiter around
    [$version], what follows [$version] does not go on with its name, and the
    pattern of the format is itself this text around the group [version],
    every tag the pattern matches in full is this text around the version
    captured: the round trip then only asks the scheme to write the version
    as it read it. *)
Lemma roundtrip_plain_format (tag : GitTag) (pre post : str) (rv : Re.regex)
    (legacy : list Re.regex) (m : Re.Match) :
  version_regexes get_tag_regexes self =
    Ok (ReFacts.sequence
          (map Re.Chr pre ++ Re.Grp (lit "version") rv :: map Re.Chr post)
        :: legacy) ->
  tag_format self = pre ++ lit "$version" ++ post ->
  no_dollar pre = true -> no_dollar post = true ->
  TemplateFacts.ends_identifier post = true ->
  Re.re_fullmatch
    (ReFacts.sequence
       (map Re.Chr pre ++ Re.Grp (lit "version") rv :: map Re.Chr post))
    (name tag) = Some m ->
  exists s,
    name tag = pre ++ s ++ post /\
    extract_version get_tag_regexes self tag =
      scheme_call (scheme self) (Some s) /\
    (forall v, scheme_call (scheme self) (Some s) = Ok v ->
               version_str (scheme self) v = s ->
               normalize_tag self (VObj v) None = Ok (name tag)).
Proof.
  intros Hv Hfmt Hpre Hpost Hend Hm.
  destruct (ReFacts.fullmatch_around _ _ _ _ _ _ Hm) as (s & Hname & Hs).
  exists s. split; [exact Hname|]. split.
  - rewrite (extract_version_primary tag _ legacy m Hv Hm).
    destruct (ReFacts.fullmatch_whole _ _ m Hm) as (_ & _ & _ & Hn).
    rewrite (version_string_group _ m Hn), Hs; [reflexivity|].
    unfold has_group. rewrite ReFacts.names_sequence, flat_map_app.
    rewrite existsb_app. cbn [flat_map Re.names].
    rewrite <- app_comm_cons. cbn [existsb].
    rewrite str_eqb_refl. cbn [orb]. apply orb_true_r.
  - intros v Hparse Hstr.
    rewrite (normalize_tag_version_format pre post v Hfmt Hpre Hpost Hend).
    rewrite Hstr, Hname. reflexivity.
Qed.

End Formats.

(** ** The rules at work *)

Module Instances.
Import Example.

(** The patterns [rules] compiles to. *)
Definition regexes : list Re.regex :=
  Eval vm_compute in
    match version_regexes get_tag_regexes rules with
    | Ok rs => rs
    | Raise _ => []
    end.

Lemma rules_regexes : version_regexes get_tag_regexes rules = Ok regexes.
Proof. vm_compute. reflexivity. Qed.

Lemma rules_ignores :
  exists ignores, ignored_regexes get_tag_regexes rules = Ok ignores.
Proof. eexists. vm_compute. reflexivity. Qed.

Definition tags : list GitTag :=
  [tag "v1.2.3"; tag "snapshot-nightly"; tag "nightly"; tag "ver1.0.0";
   tag "v1.2.3"].

Lemma get_version_tags_filter_witness :
  version_regexes get_tag_regexes rules = Ok regexes /\
  exists log,
    get_version_tags get_tag_regexes rules tags true =
    Ok (filter (selected get_tag_regexes rules) tags, log).
Proof.
  split; [vm_compute; reflexivity|].
  apply (get_version_tags_filter get_tag_regexes rules tags true regexes).
  - vm_compute. reflexivity.
  - intros _. eexists. vm_compute. reflexivity.
Defined.

Lemma get_version_tags_warnings_witness :
  version_regexes get_tag_regexes rules = Ok regexes /\
  exists kept log,
    get_version_tags get_tag_regexes rules tags true = Ok (kept, log) /\
    kept = filter (selected get_tag_regexes rules) tags /\
    log = warnings get_tag_regexes rules true tags.
Proof.
  split; [vm_compute; reflexivity|].
  destruct (get_version_tags_warnings get_tag_regexes rules tags true regexes)
    as (kept & log & H1 & H2 & H3 & _).
  - vm_compute. reflexivity.
  - intros _. eexists. vm_compute. reflexivity.
  - exists kept, log. auto.
Defined.

(** The example of the specification: with [warn], the snapshot is left out
    without a warning and the unknown tag is left out with one. *)
Example get_version_tags_example :
  get_version_tags get_tag_regexes rules tags true =
  Ok ([tag "v1.2.3"; tag "ver1.0.0"; tag "v1.2.3"], [warning (tag "nightly")]).
Proof. vm_compute. reflexivity. Qed.

Lemma include_in_changelog_cases_witness :
  extract_version get_tag_regexes rules (tag "v2.0.0-rc1") =
    Ok (mkVersion (2, 0, 0)%N (Some (lit "rc1"))) /\
  include_in_changelog get_tag_regexes rules (tag "v2.0.0-rc1") = Ok false /\
  include_in_changelog get_tag_regexes rules (tag "nightly") = Ok false.
Proof.
  split; [vm_compute; reflexivity|].
  destruct (include_in_changelog_cases get_tag_regexes rules
              (tag "v2.0.0-rc1")) as (_ & H & _).
  destruct (include_in_changelog_cases get_tag_regexes rules (tag "nightly"))
    as (H' & _).
  split.
  - apply (H (mkVersion (2, 0, 0)%N (Some (lit "rc1")))); vm_compute; reflexivity.
  - apply H'. vm_compute. reflexivity.
Defined.

Example include_in_changelog_release :
  include_in_changelog get_tag_regexes rules (tag "v2.0.0") = Ok true.
Proof. vm_compute. reflexivity. Qed.

Lemma search_version_precedence_witness :
  version_regexes get_tag_regexes rules = Ok regexes /\
  search_version get_tag_regexes rules (lit "## ver0.9.0, v1.0.0 and v2.0.0")
                 true =
  Ok (Some (Some (lit "2.0.0"), lit "v2.0.0")).
Proof.
  split; [vm_compute; reflexivity|].
  destruct (search_version_precedence get_tag_regexes rules
              (lit "## ver0.9.0, v1.0.0 and v2.0.0") true regexes)
    as (_ & H & _); [vm_compute; reflexivity|].
  etransitivity.
  - eapply (H []); [reflexivity | constructor | vm_compute; reflexivity].
  - vm_compute. reflexivity.
Defined.

(** The legacy pattern matches earlier in the text, and the primary one wins
    all the same. *)
Example search_version_first :
  search_version get_tag_regexes rules (lit "## ver0.9.0, v1.0.0 and v2.0.0")
                 false =
  Ok (Some (Some (lit "1.0.0"), lit "v1.0.0")).
Proof. vm_compute. reflexivity. Qed.

Lemma extract_version_full_match_witness :
  version_regexes get_tag_regexes rules = Ok regexes /\
  extract_version get_tag_regexes rules (tag "ver1.2.3") =
    Ok (mkVersion (1, 2, 3)%N None) /\
  extract_version get_tag_regexes rules (tag "v1.2.3/x") =
    Raise InvalidVersion.
Proof.
  split; [vm_compute; reflexivity|].
  destruct (extract_version_full_match get_tag_regexes rules
              (tag "ver1.2.3") regexes) as (_ & H & _);
    [vm_compute; reflexivity|].
  destruct (extract_version_full_match get_tag_regexes rules
              (tag "v1.2.3/x") regexes) as (_ & _ & H');
    [vm_compute; reflexivity|].
  split.
  - etransitivity.
    + eapply (H [_]); [reflexivity | | vm_compute; reflexivity].
      constructor; [vm_compute; reflexivity | constructor].
    + vm_compute. reflexivity.
  - apply H'. left. repeat constructor.
Defined.

(** Rules whose format has no [major]. *)
Definition build_rules : TagRules := {|
  scheme := semver;
  tag_format := lit "build-$minor.$patch";
  legacy_tag_formats := [];
  ignored_tag_formats := [];
  merge_prereleases := false
|}.

Definition build_regexes : list Re.regex :=
  Eval vm_compute in
    match version_regexes get_tag_regexes build_rules with
    | Ok rs => rs
    | Raise _ => []
    end.





(** C9: a tag that [extract_version] reads is a version tag for
    [is_version_tag], and not the other way round: [is_version_tag] is
    content with a match of the start of the name, [extract_version] wants the
    whole name matched. *)
Theorem extract_version_implies_version_tag :
  (forall get_tag_regexes self tag version,
     extract_version get_tag_regexes self tag = Ok version ->
     is_version_tag get_tag_regexes self (TagObj tag) = Ok true) /\
  (exists get_tag_regexes self tag,
     is_version_tag get_tag_regexes self (TagObj tag) = Ok true /\
     extract_version get_tag_regexes self tag = Raise InvalidVersion /\
     exists r m, In r regexes /\ version_regexes get_tag_regexes self = Ok regexes /\
                 Re.re_match r (name tag) = Some m /\
                 Re.m_end m < length (name tag)).
Proof.
  split.
  - apply extract_version_is_version_tag.
  - exists get_tag_regexes, rules, (tag "v1.2.3/x").
    split; [vm_compute; reflexivity|]. split; [vm_compute; reflexivity|].
    eexists. eexists. split; [left; reflexivity|].
    split; [vm_compute; reflexivity|]. split; [vm_compute; reflexivity|].
    vm_compute. lia.
Qed.

Lemma extract_version_implies_version_tag_witness :
  extract_version get_tag_regexes rules (tag "v1.2.3") =
    Ok (mkVersion (1, 2, 3)%N None) /\
  is_version_tag get_tag_regexes rules (TagObj (tag "v1.2.3")) = Ok true.
Proof.
  split; [vm_compute; reflexivity|].
  apply (proj1 extract_version_implies_version_tag get_tag_regexes rules
               (tag "v1.2.3") (mkVersion (1, 2, 3)%N None)).
  vm_compute. reflexivity.
Defined.

Lemma parse_title_witness :
  ~ In Re.newline (lit "## v1.2.3 (2023-01-01)") /\
  parse_version_from_title get_tag_regexes {| tag_rules := rules |}
                           (lit "## v1.2.3 (2023-01-01)") =
    search_version get_tag_regexes rules (lit "v1.2.3 (2023-01-01)") false /\
  parse_title_level {| tag_rules := rules |} (lit "## v1.2.3 (2023-01-01)") =
    Ok (Some 2).
Proof.
  assert (H : ~ In Re.newline (lit "## v1.2.3 (2023-01-01)")).
  { simpl. intros H. repeat (destruct H as [H|H]; [discriminate|]). exact H. }
  split; [exact H|].
  apply (proj1 (MarkdownFacts.parse_title get_tag_regexes
                  {| tag_rules := rules |} (lit "## v1.2.3 (2023-01-01)")
                  (lit "## v1.2.3 (2023-01-01)") (or_introl eq_refl) H)
               2 (lit "v1.2.3 (2023-01-01)")); [lia | reflexivity].
Defined.

Lemma table_ok_example :
  Substitution.table_ok (get_tag_regexes (parser_pattern semver)) = true.
Proof. vm_compute. reflexivity. Qed.

Lemma format_regex_substitution_witness :
  Substitution.table_ok (get_tag_regexes (parser_pattern (scheme rules))) =
    true /\
  _format_regex get_tag_regexes rules (lit "snapshot-*") true =
    lit "snapshot-(?:.*?)" /\
  _format_regex (fun p => List.rev (get_tag_regexes p)) rules
                (lit "ver$major.$minor.$patch") false =
  _format_regex get_tag_regexes rules (lit "ver$major.$minor.$patch") false.
Proof.
  split; [vm_compute; reflexivity|].
  destruct (format_regex_substitution get_tag_regexes rules
              (lit "snapshot-*")) as (_ & H & _ & _);
    [vm_compute; reflexivity|].
  destruct (format_regex_substitution get_tag_regexes rules
              (lit "ver$major.$minor.$patch")) as (_ & _ & H' & _);
    [vm_compute; reflexivity|].
  split.
  - rewrite H by (vm_compute; reflexivity). vm_compute. reflexivity.
  - apply (H' (fun p => List.rev (get_tag_regexes p)) false).
    apply Permutation_rev.
Defined.

(** The wildcard is replaced first: the [*] of the expressions that are
    substituted afterwards stay. *)
Example format_regex_wildcard_first :
  _format_regex (fun _ => [(lit "$any", lit ".*")]) rules (lit "$any-*") true =
  lit ".*-(?:.*?)".
Proof. vm_compute. reflexivity. Qed.

(** A tag that matches in full and that the scheme does not read. *)
Example extract_version_two_parts :
  is_version_tag get_tag_regexes rules (TagObj (tag "v1.2")) = Ok true /\
  extract_version get_tag_regexes rules (tag "v1.2") = Raise InvalidVersion.
Proof. split; vm_compute; reflexivity. Qed.

(** Rules whose primary format names the parts of the release. *)
Definition ver_rules : TagRules := {|
  scheme := semver;
  tag_format := lit "ver$major.$minor.$patch";
  legacy_tag_formats := [];
  ignored_tag_formats := [];
  merge_prereleases := false
|}.

Definition number_body : Re.regex := Re.Plus true (Re.Cls false [Re.IDigit]).

(** The format of [ver_rules] token by token: the dots are read as syntax by
    the pattern. *)
Definition ver_tokens : list Tokens.token :=
  [Tokens.Lit "v"; Tokens.Lit "e"; Tokens.Lit "r";
   Tokens.Field (lit "major") false number_body;
   Tokens.Raw (lit ".") Re.Any;
   Tokens.Field (lit "minor") false number_body;
   Tokens.Raw (lit ".") Re.Any;
   Tokens.Field (lit "patch") false number_body].

Definition ver_match : Re.Match :=
  Eval vm_compute in
    match Re.re_fullmatch (Tokens.pattern_of ver_tokens)
                          (name (tag "ver1.2.3")) with
    | Some m => m
    | None => Re.mkMatch 0 0 [] [] []
    end.


(** The round trip of [ver1.2.3] under [ver_rules], step by step: the pieces
    of the tag, the version read and the tag written. *)
Example ver_roundtrip :
  name (tag "ver1.2.3") =
    concat [lit "v"; lit "e"; lit "r"; lit "1"; lit "."; lit "2"; lit ".";
            lit "3"] /\
  Forall2 (Tokens.reads (Re.m_groups ver_match)) ver_tokens
    [lit "v"; lit "e"; lit "r"; lit "1"; lit "."; lit "2"; lit "."; lit "3"] /\
  extract_version get_tag_regexes ver_rules (tag "ver1.2.3") =
    Ok (mkVersion (1, 2, 3)%N None) /\
  Forall2 (Tokens.kept (fields ver_rules (mkVersion (1, 2, 3)%N None)))
    ver_tokens
    [lit "v"; lit "e"; lit "r"; lit "1"; lit "."; lit "2"; lit "."; lit "3"] /\
  normalize_tag ver_rules (@VObj semver (mkVersion (1, 2, 3)%N None)) None =
    Ok (name (tag "ver1.2.3")).
Proof.
  split; [reflexivity|]. split.
  { repeat constructor. }
  split; [vm_compute; reflexivity|]. split.
  { repeat constructor. }
  vm_compute. reflexivity.
Qed.


(** The format [v$version] of [rules], token by token. *)
Definition version_tokens : list Tokens.token :=
  Eval vm_compute in
    match hd Re.Eps regexes with
    | Re.Seq _ (Re.Grp n body) => [Tokens.Lit "v"; Tokens.Field n false body]
    | _ => []
    end.

Example version_tokens_rules :
  tag_format rules = Tokens.format_of version_tokens /\
  hd Re.Eps regexes = Tokens.pattern_of version_tokens /\
  Tokens.well_formed version_tokens = true.
Proof. repeat split; vm_compute; reflexivity. Qed.

(** A format with an optional placeholder, token by token. *)
Example prerelease_tokens :
  let ts :=
    [Tokens.Lit "v";
     Tokens.Field (lit "major") false number_body;
     Tokens.Raw (lit ".") Re.Any;
     Tokens.Field (lit "minor") false number_body;
     Tokens.Raw (lit ".") Re.Any;
     Tokens.Field (lit "patch") false number_body;
     Tokens.Field (lit "prerelease") true
       (Re.Seq (Re.Plus true (Re.Cls false [Re.IWord]))
               (Re.Plus true (Re.Cls false [Re.IDigit])))] in
  Tokens.format_of ts = lit "v$major.$minor.$patch$prerelease" /\
  Re.re_compile (_format_regex get_tag_regexes rules
                   (lit "v$major.$minor.$patch$prerelease") false) =
    Ok (Tokens.pattern_of ts) /\
  Tokens.well_formed ts = true.
Proof. repeat split; vm_compute; reflexivity. Qed.

(** The pattern [rules] compiles [v$version] to is plain text around the
    group [version]: every tag it matches in full and whose version the scheme
    writes as it stands comes back from the round trip. *)
Example roundtrip_plain_format_rules :
  exists rv,
    regexes =
    ReFacts.sequence
      (map Re.Chr (lit "v") ++ Re.Grp (lit "version") rv :: map Re.Chr [])
    :: List.tl regexes.
Proof. eexists. vm_compute. reflexivity. Qed.

(** Rules with a legacy format that names no part of a version. *)
Definition latest_rules : TagRules := {|
  scheme := semver;
  tag_format := lit "v$version";
  legacy_tag_formats := [lit "latest"];
  ignored_tag_formats := [];
  merge_prereleases := false
|}.

(** C8: the tag [latest] under the legacy format [latest] is a version tag
    that the pattern matches in full; [_version_string] asks for [major],
    which the pattern lacks, and the [KeyError] passes through
    [include_in_changelog], which answers neither true nor false.  The search
    meets the same want on the same text and returns [None]. *)
Theorem include_in_changelog_latest :
  is_version_tag get_tag_regexes latest_rules (TagObj (tag "latest")) =
    Ok true /\
  extract_version get_tag_regexes latest_rules (tag "latest") =
    Raise (KeyError (lit "major")) /\
  include_in_changelog get_tag_regexes latest_rules (tag "latest") =
    Raise (KeyError (lit "major")) /\
  search_version get_tag_regexes latest_rules (lit "latest") false = Ok None.
Proof. repeat split; vm_compute; reflexivity. Qed.

(** Rules whose format has a longer name that starts with a placeholder. *)
Definition longer_rules : TagRules := {|
  scheme := semver;
  tag_format := lit "$versionX";
  legacy_tag_formats := [];
  ignored_tag_formats := [];
  merge_prereleases := false
|}.

(** C6: in [$versionX] the pattern compiler substitutes [$version] and leaves
    the [X], where [normalize_tag] takes [$versionX] for one name and keeps
    it.  Under this format the tag [normalize_tag] writes is no version tag,
    the tag [1.2.3X] is one, and [find_tag_for] does not find it. *)
Theorem format_regex_longer_name :
  _format_regex get_tag_regexes longer_rules (lit "$versionX") false =
    pattern ++ lit "X" /\
  _format_regex get_tag_regexes longer_rules (lit "$versionX") false <>
    lit "$versionX" /\
  normalize_tag longer_rules (@VObj semver (mkVersion (1, 2, 3)%N None)) None =
    Ok (lit "$versionX") /\
  is_version_tag get_tag_regexes longer_rules (TagName (lit "$versionX")) =
    Ok false /\
  is_version_tag get_tag_regexes longer_rules (TagName (lit "1.2.3X")) =
    Ok true /\
  find_tag_for longer_rules [tag "1.2.3X"]
               (@VObj semver (mkVersion (1, 2, 3)%N None)) = Ok None.
Proof.
  repeat split; try (vm_compute; reflexivity). vm_compute. discriminate.
Qed.

End Instances.

(** * Further properties of the tag rules *)

Section MoreTagRules.

Variable get_tag_regexes : str -> list (str * str).
Variable self : TagRules.

(** X1: a tag that a pattern matches in full, where the pattern has neither a
    group [version] nor a group [major], makes [extract_version] raise
    [KeyError], and [include_in_changelog], which only catches
    [InvalidVersion], raises it too. *)
Theorem extract_version_key_error (tag : GitTag) (regexes : list Re.regex)
    (m : Re.Match) :
  version_regexes get_tag_regexes self = Ok regexes ->
  full_match regexes tag = Some m ->
  dict_mem (Re.groupdict m) (lit "version") = false ->
  dict_mem (Re.groupdict m) (lit "major") = false ->
  extract_version get_tag_regexes self tag = Raise (KeyError (lit "major")) /\
  include_in_changelog get_tag_regexes self tag =
    Raise (KeyError (lit "major")).
Proof.
  intros Hv Hm Hver Hmaj.
  assert (Hx : extract_version get_tag_regexes self tag =
               Raise (KeyError (lit "major"))).
  { unfold extract_version. rewrite Hv. cbn [bind].
    unfold full_match in Hm. rewrite Hm.
    unfold _version_string. rewrite Hver.
    unfold dict_mem in Hmaj. unfold dict_item.
    destruct (Re.lookup (lit "major") (Re.groupdict m)); [discriminate|].
    reflexivity. }
  split; [exact Hx|]. unfold include_in_changelog. rewrite Hx. reflexivity.
Qed.

(** X2: extraction and search read the same version from a match: the text
    of the group [version] where the pattern has one, and otherwise, when
    [minor] and [patch] are captured and not empty, the same string that
    starts with [major.minor.patch]. *)
Theorem version_string_agrees (m : Re.Match) :
  (dict_mem (Re.groupdict m) (lit "version") = true ->
   _version_string m = Ok (Re.group m (lit "version")) /\
   version_and_tag m = Some (Re.group m (lit "version"), Re.group0 m)) /\
  (forall major minor patch,
     dict_mem (Re.groupdict m) (lit "version") = false ->
     Re.lookup (lit "major") (Re.groupdict m) = Some (Some major) ->
     Re.lookup (lit "minor") (Re.groupdict m) = Some (Some minor) ->
     Re.lookup (lit "patch") (Re.groupdict m) = Some (Some patch) ->
     minor <> [] -> patch <> [] ->
     exists rest,
       _version_string m =
         Ok (Some (major ++ lit "." ++ minor ++ lit "." ++ patch ++ rest)) /\
       version_and_tag m =
         Some (Some (major ++ lit "." ++ minor ++ lit "." ++ patch ++ rest),
               Re.group0 m)).
Proof.
  split.
  - intros Hver. unfold _version_string, version_and_tag. rewrite Hver. auto.
  - intros major minor patch Hver Hmaj Hmin Hpat Hmin' Hpat'.
    unfold _version_string, version_and_tag, dict_item, dict_get.
    rewrite Hver, Hmaj, Hmin, Hpat. cbn [bind fmt].
    destruct minor as [|x minor]; [congruence|].
    destruct patch as [|y patch]; [congruence|]. cbn [truthy fmt].
    set (pre := match Re.lookup (lit "prerelease") (Re.groupdict m) with
                | Some v => v
                | None => None
                end).
    set (dev := match Re.lookup (lit "devrelease") (Re.groupdict m) with
                | Some v => v
                | None => None
                end).
    destruct (truthy pre); destruct (truthy dev); cbn [fmt].
    + exists (lit "-" ++ fmt pre ++ fmt dev).
      rewrite <- !app_assoc. auto.
    + exists (lit "-" ++ fmt pre). rewrite <- !app_assoc. auto.
    + exists (fmt dev). rewrite <- !app_assoc. auto.
    + exists []. rewrite <- !app_assoc, app_nil_r. auto.
Qed.

(** The string [normalize_tag] writes for a version of the scheme: with a
    version object it never raises. *)
Definition rendered (v : Version (scheme self)) (format : str) : str :=
  match normalize_tag self (VObj v) (Some format) with
  | Ok s => s
  | Raise _ => []
  end.

Lemma normalize_tag_rendered (v : Version (scheme self)) (format : str) :
  normalize_tag self (VObj v) (Some format) = Ok (rendered v format).
Proof.
  unfold rendered, normalize_tag. cbn [bind].
  destruct (release (scheme self) v) as [[major minor] patch]. reflexivity.
Qed.

Lemma find_first {A : Type} (f : A -> bool) (l : list A) (x : A) :
  find f l = Some x <->
  exists pre post,
    l = pre ++ x :: post /\ f x = true /\ forall y, In y pre -> f y = false.
Proof.
  split.
  - induction l as [|a l IH]; [discriminate|]. simpl.
    destruct (f a) eqn:E.
    + intros H. injection H as <-. exists [], l. simpl. tauto.
    + intros H. destruct (IH H) as (pre & post & -> & Hx & Hpre).
      exists (a :: pre), post. split; [reflexivity|]. split; [exact Hx|].
      intros y [<-|Hy]; auto.
  - intros (pre & post & -> & Hx & Hpre).
    induction pre as [|a pre IH]; simpl.
    + rewrite Hx. reflexivity.
    + rewrite (Hpre a) by (left; reflexivity). apply IH.
      intros y Hy. apply Hpre. right. exact Hy.
Qed.

Lemma existsb_str_eqb (s : str) (l : list str) :
  existsb (str_eqb s) l = true <-> In s l.
Proof.
  rewrite existsb_exists. split.
  - intros (x & Hx & E). apply str_eqb_eq in E. subst. exact Hx.
  - intros H. exists s. split; [exact H | apply str_eqb_refl].
Qed.

(** X3: [find_tag_for] returns the first tag, in the order of the tags given,
    whose name is what [normalize_tag] writes for the version under the
    primary format or under one of the legacy formats, whichever format that
    is; it returns [None] exactly when no tag has such a name. *)
Theorem find_tag_for_first (tags : list GitTag) (v : Version (scheme self)) :
  let possible :=
    map (rendered v) (tag_format self :: legacy_tag_formats self) in
  (forall t,
     find_tag_for self tags (VObj v) = Ok (Some t) <->
     exists pre post,
       tags = pre ++ t :: post /\ In (name t) possible /\
       forall t', In t' pre -> ~ In (name t') possible) /\
  (find_tag_for self tags (VObj v) = Ok None <->
   forall t, In t tags -> ~ In (name t) possible).
Proof.
  intros possible.
  assert (Hf : find_tag_for self tags (VObj v) =
               Ok (find (fun t => existsb (str_eqb (name t)) possible) tags)).
  { unfold find_tag_for. cbn [bind].
    assert (Hm : forall fs,
              mapM (fun f => normalize_tag self (VObj v) (Some f)) fs =
              Ok (map (rendered v) fs)).
    { induction fs as [|f fs IH]; [reflexivity|]. cbn [mapM map].
      rewrite normalize_tag_rendered, IH. reflexivity. }
    rewrite Hm. reflexivity. }
  rewrite Hf. split.
  - intros t. split.
    + intros H. injection H as H. apply find_first in H.
      destruct H as (pre & post & -> & Ht & Hpre). exists pre, post.
      split; [reflexivity|]. split; [apply existsb_str_eqb, Ht|].
      intros t' Ht' Hin. apply existsb_str_eqb in Hin.
      pose proof (Hpre t' Ht') as Hb. apply not_true_iff_false in Hb.
      exact (Hb Hin).
    + intros (pre & post & -> & Ht & Hpre). f_equal. apply find_first.
      exists pre, post. split; [reflexivity|].
      split; [apply existsb_str_eqb, Ht|].
      intros y Hy. destruct (existsb _ possible) eqn:E; [|reflexivity].
      apply existsb_str_eqb in E. exfalso. exact (Hpre y Hy E).
  - split.
    + intros H. injection H as H. intros t Ht Hin.
      apply existsb_str_eqb in Hin.
      pose proof (find_none _ _ H t Ht) as Hb. apply not_true_iff_false in Hb.
      exact (Hb Hin).
    + intros H. f_equal.
      destruct (find _ tags) as [t|] eqn:E; [|reflexivity].
      apply find_some in E as [Ht Hin]. apply existsb_str_eqb in Hin.
      exfalso. exact (H t Ht Hin).
Qed.

End MoreTagRules.

Lemma re_compile_error (source : str) (e : exn) :
  Re.re_compile source = Raise e -> e = ReError.
Proof.
  unfold Re.re_compile.
  destruct (Re.parse_alt _ source) as [[r [|c rest]]|];
    try (intros H; injection H as <-; reflexivity).
  destruct (Re.nodup_names _); [discriminate|].
  intros H. injection H as <-. reflexivity.
Qed.

Lemma mapM_app {A B : Type} (f : A -> result B) (l1 l2 : list A) :
  mapM f (l1 ++ l2) =
  (a <- mapM f l1 ;; b <- mapM f l2 ;; Ok (a ++ b)).
Proof.
  induction l1 as [|x l1 IH]; simpl.
  - destruct (mapM f l2); reflexivity.
  - destruct (f x); simpl; [|reflexivity]. rewrite IH.
    destruct (mapM f l1); simpl; [|reflexivity].
    destruct (mapM f l2); reflexivity.
Qed.

Lemma mapM_error {A B : Type} (f : A -> result B) (l : list A) (e : exn) :
  mapM f l = Raise e -> exists a, In a l /\ f a = Raise e.
Proof.
  induction l as [|x l IH]; simpl; [discriminate|].
  destruct (f x) as [b|e'] eqn:E; simpl.
  - destruct (mapM f l) as [bs|e'']; simpl; [discriminate|].
    intros H. injection H as <-. destruct (IH eq_refl) as (y & Hy & Hf).
    exists y. auto.
  - intros H. injection H as <-. exists x. auto.
Qed.

Lemma first_some_app {A B : Type} (f : A -> option B) (l1 l2 : list A) :
  first_some f (l1 ++ l2) =
  match first_some f l1 with
  | Some b => Some b
  | None => first_some f l2
  end.
Proof.
  induction l1 as [|x l1 IH]; simpl; [reflexivity|].
  destruct (f x); [reflexivity | exact IH].
Qed.

(** The rules with further legacy formats after those they have. *)
Definition with_legacy (self : TagRules) (more : list str) : TagRules := {|
  scheme := scheme self;
  tag_format := tag_format self;
  legacy_tag_formats := legacy_tag_formats self ++ more;
  ignored_tag_formats := ignored_tag_formats self;
  merge_prereleases := merge_prereleases self
|}.

Section MoreBatches.

Variable get_tag_regexes : str -> list (str * str).
Variable self : TagRules.

Lemma get_version_tags_selected (tags : list GitTag) (warn : bool)
    (regexes : list Re.regex) :
  version_regexes get_tag_regexes self = Ok regexes ->
  forallb (selected get_tag_regexes self) tags = true ->
  get_version_tags get_tag_regexes self tags warn = Ok (tags, []).
Proof.
  intros Hv. induction tags as [|t tags IH]; intros Hall; [reflexivity|].
  cbn [forallb] in Hall. apply andb_true_iff in Hall as [Ht Hall].
  cbn [get_version_tags]. unfold _select_tag.
  unfold selected, is_version_tag in Ht |- *. rewrite Hv in Ht |- *.
  cbn [bind tag_name] in Ht |- *. rewrite Ht. cbn [bind fst snd].
  rewrite (IH Hall). reflexivity.
Qed.

(** X4: the tags [get_version_tags] returns are all version tags: given to
    [get_version_tags] again, with or without [warn], they all come back and
    nothing is warned about. *)
Theorem get_version_tags_idempotent (tags : list GitTag) (warn : bool)
    (regexes : list Re.regex) (kept : list GitTag) (log : list str) :
  version_regexes get_tag_regexes self = Ok regexes ->
  get_version_tags get_tag_regexes self tags warn = Ok (kept, log) ->
  forall warn', get_version_tags get_tag_regexes self kept warn' = Ok (kept, []).
Proof.
  intros Hv Hget warn'. apply (get_version_tags_selected kept warn' regexes Hv).
  revert kept log Hget. induction tags as [|t tags IH]; intros kept log Hget.
  - injection Hget as <- <-. reflexivity.
  - cbn [get_version_tags] in Hget.
    destruct (_select_tag get_tag_regexes self t warn) as [[b l]|e] eqn:Es;
      [|discriminate].
    destruct (get_version_tags get_tag_regexes self tags warn)
      as [[k l']|e] eqn:Eg; [|discriminate].
    cbn [bind fst snd] in Hget. injection Hget as <- <-.
    specialize (IH k l' eq_refl). destruct b; [|exact IH].
    cbn [forallb]. rewrite IH, andb_true_r.
    unfold _select_tag in Es. unfold selected.
    change (is_version_tag get_tag_regexes self (TagObj t))
      with (is_version_tag get_tag_regexes self (TagName (name t))).
    destruct (is_version_tag get_tag_regexes self (TagName (name t)))
      as [[|]|e]; cbn [bind] in Es; try reflexivity; try discriminate.
    destruct warn; [|discriminate].
    destruct (is_ignored_tag get_tag_regexes self (TagName (name t)))
      as [[|]|e]; cbn [bind negb] in Es; discriminate.
Qed.

(** X5: a batch can be split: [get_version_tags] on two lists one after the
    other is [get_version_tags] on the first and then on the second, with the
    tags kept and the warnings put end to end, and with the error of
    whichever raises first. *)
Theorem get_version_tags_app (tags1 tags2 : list GitTag) (warn : bool) :
  get_version_tags get_tag_regexes self (tags1 ++ tags2) warn =
  (r1 <- get_version_tags get_tag_regexes self tags1 warn ;;
   r2 <- get_version_tags get_tag_regexes self tags2 warn ;;
   Ok (fst r1 ++ fst r2, snd r1 ++ snd r2)).
Proof.
  induction tags1 as [|t tags1 IH].
  - change ([] ++ tags2) with tags2. cbn [get_version_tags bind fst snd].
    destruct (get_version_tags get_tag_regexes self tags2 warn) as [[k l]|e];
      reflexivity.
  - rewrite <- app_comm_cons. cbn [get_version_tags]. rewrite IH.
    destruct (_select_tag get_tag_regexes self t warn) as [[b l]|e];
      cbn [bind]; [|reflexivity].
    destruct (get_version_tags get_tag_regexes self tags1 warn) as [[k1 l1]|e];
      cbn [bind]; [|reflexivity].
    destruct (get_version_tags get_tag_regexes self tags2 warn) as [[k2 l2]|e];
      cbn [bind fst snd]; [|reflexivity].
    rewrite <- app_assoc. destruct b; reflexivity.
Qed.

(** X6: the ignored formats are compiled only to decide on a warning.  Where
    one of them does not compile, [get_version_tags] without [warn] is not
    affected, and with [warn] it raises as soon as one tag is not a version
    tag, and returns all the tags when each is one. *)
Theorem get_version_tags_bad_ignored (tags : list GitTag)
    (regexes : list Re.regex) (e : exn) :
  version_regexes get_tag_regexes self = Ok regexes ->
  ignored_regexes get_tag_regexes self = Raise e ->
  get_version_tags get_tag_regexes self tags false =
    Ok (filter (selected get_tag_regexes self) tags, []) /\
  get_version_tags get_tag_regexes self tags true =
    if forallb (selected get_tag_regexes self) tags
    then Ok (tags, []) else Raise e.
Proof.
  intros Hv Hi. split.
  - rewrite (get_version_tags_value get_tag_regexes self tags false regexes Hv)
      by discriminate.
    f_equal. f_equal. unfold warnings.
    induction tags as [|t tags IH]; [reflexivity|]. exact IH.
  - induction tags as [|t tags IH]; [reflexivity|].
    cbn [get_version_tags forallb]. unfold _select_tag at 1.
    unfold selected at 1.
    change (is_version_tag get_tag_regexes self (TagObj t))
      with (is_version_tag get_tag_regexes self (TagName (name t))).
    unfold is_version_tag at 1 2. rewrite Hv. cbn [bind].
    destruct (existsb _ regexes); cbn [bind andb fst snd].
    + rewrite IH. destruct (forallb _ tags); reflexivity.
    + unfold is_ignored_tag. rewrite Hi. reflexivity.
Qed.

(** X7: a tag format that does not compile shows in every query as
    [re.error]: [include_in_changelog] does not take it for a tag that is no
    version.  Only [get_version_tags] on no tag at all does not see it. *)
Theorem bad_format_raises (e : exn) :
  version_regexes get_tag_regexes self = Raise e ->
  e = ReError /\
  (forall tag, is_version_tag get_tag_regexes self tag = Raise ReError) /\
  (forall tag, extract_version get_tag_regexes self tag = Raise ReError) /\
  (forall tag, include_in_changelog get_tag_regexes self tag =
               Raise ReError) /\
  (forall txt last, search_version get_tag_regexes self txt last =
                    Raise ReError) /\
  (forall warn, get_version_tags get_tag_regexes self [] warn = Ok ([], [])) /\
  (forall tag tags warn,
     get_version_tags get_tag_regexes self (tag :: tags) warn =
     Raise ReError).
Proof.
  intros Hv.
  assert (He : e = ReError).
  { unfold version_regexes in Hv. apply mapM_error in Hv as (a & _ & Ha).
    eapply re_compile_error. exact Ha. }
  subst e. split; [reflexivity|].
  assert (Hx : forall tag,
             extract_version get_tag_regexes self tag = Raise ReError).
  { intros tag. unfold extract_version. rewrite Hv. reflexivity. }
  repeat split.
  - intros tag. unfold is_version_tag. rewrite Hv. reflexivity.
  - exact Hx.
  - intros tag. unfold include_in_changelog. rewrite Hx. reflexivity.
  - intros txt last. unfold search_version. rewrite Hv. reflexivity.
  - intros tag tags warn. cbn [get_version_tags].
    unfold _select_tag, is_version_tag. rewrite Hv. reflexivity.
Qed.

Lemma version_regexes_with_legacy (more : list str)
    (regexes regexes' : list Re.regex) :
  version_regexes get_tag_regexes self = Ok regexes ->
  version_regexes get_tag_regexes (with_legacy self more) = Ok regexes' ->
  exists added, regexes' = regexes ++ added.
Proof.
  unfold version_regexes. cbn [with_legacy tag_format legacy_tag_formats].
  intros Hv. rewrite app_comm_cons, map_app, mapM_app.
  change (fun p => _format_regex get_tag_regexes (with_legacy self more) p false)
    with (fun p => _format_regex get_tag_regexes self p false).
  rewrite Hv. cbn [bind].
  destruct (mapM _ (map _ more)) as [added|e']; cbn [bind]; [|discriminate].
  intros H. injection H as <-. exists added. reflexivity.
Qed.

(** X8: legacy formats added after those of the configuration change nothing
    for what the formats before them recognise: a version tag stays a version
    tag, a tag one of the former patterns matches in full is extracted as
    before, and a text one of them matches in is searched as before. *)
Theorem legacy_formats_extend (more : list str)
    (regexes regexes' : list Re.regex) :
  version_regexes get_tag_regexes self = Ok regexes ->
  version_regexes get_tag_regexes (with_legacy self more) = Ok regexes' ->
  (forall tag,
     is_version_tag get_tag_regexes self tag = Ok true ->
     is_version_tag get_tag_regexes (with_legacy self more) tag = Ok true) /\
  (forall tag m,
     full_match regexes tag = Some m ->
     extract_version get_tag_regexes (with_legacy self more) tag =
     extract_version get_tag_regexes self tag) /\
  (forall txt last r ms,
     winner regexes txt = Some (r, ms) ->
     search_version get_tag_regexes (with_legacy self more) txt last =
     search_version get_tag_regexes self txt last).
Proof.
  intros Hv Hv'.
  destruct (version_regexes_with_legacy more regexes regexes' Hv Hv')
    as [added ->].
  split; [|split].
  - intros tag. unfold is_version_tag. rewrite Hv, Hv'. cbn [bind].
    intros H. injection H as H. rewrite existsb_app, H. reflexivity.
  - intros tag m Hm. unfold extract_version. rewrite Hv, Hv'. cbn [bind].
    unfold full_match in Hm. rewrite first_some_app, Hm. reflexivity.
  - intros txt last r ms Hw.
    rewrite (search_version_winner get_tag_regexes self txt last _ Hv).
    rewrite (search_version_winner get_tag_regexes (with_legacy self more)
               txt last _ Hv').
    unfold winner in *. rewrite first_some_app, Hw. reflexivity.
Qed.

End MoreBatches.

(** ** What [normalize_tag] leaves as it is *)

Section MoreNormalize.

Import Substitution TemplateFacts.

Variable self : TagRules.

Lemma id_char_no_dollar (c : ascii) :
  Template.is_id_char c = true -> chr_eqb c "$" = false.
Proof.
  intros H. destruct (chr_eqb c "$") eqn:E; [|reflexivity].
  apply chr_eqb_eq in E. subst c. vm_compute in H. discriminate.
Qed.

Lemma identifier_no_dollar (id : str) :
  Template.identifier id = Some id -> no_dollar id = true.
Proof.
  unfold Template.identifier. destruct id as [|c id]; [discriminate|].
  destruct (Template.is_id_start c); [|discriminate].
  intros H. injection H as H.
  assert (Hid : forallb Template.is_id_char (c :: id) = true)
    by (apply take_id_fixed; exact H).
  unfold no_dollar. rewrite forallb_forall in Hid |- *.
  intros x Hx. apply negb_true_iff, id_char_no_dollar, Hid, Hx.
Qed.

(** A name that the mapping lacks stays, with its delimiter. *)
Lemma substitute_unknown (mapping : list (str * str)) (id rest : str) :
  Template.identifier id = Some id -> Re.lookup id mapping = None ->
  ends_identifier rest = true ->
  Template.substitute_from mapping 0 ("$"%char :: id ++ rest) =
  "$"%char :: id ++ Template.substitute_from mapping 0 rest.
Proof.
  intros Hid Hv Hrest. rewrite substitute_from_cons, chr_eqb_refl.
  pose proof (identifier_no_dollar id Hid) as Hnd.
  assert (Hident : Template.identifier (id ++ rest) = Some id).
  { unfold Template.identifier in *. destruct id as [|c id]; [discriminate|].
    rewrite <- app_comm_cons.
    destruct (Template.is_id_start c); [|discriminate].
    injection Hid as Hid. f_equal.
    change (c :: id ++ rest) with ((c :: id) ++ rest).
    apply take_id_app; [apply take_id_fixed; exact Hid | exact Hrest]. }
  assert (Htoken : Template.token mapping (id ++ rest) = (["$"%char], 0)).
  { unfold Template.token. rewrite Hident, Hv.
    destruct id as [|c id]; [discriminate|]. rewrite <- app_comm_cons.
    unfold no_dollar in Hnd. cbn [forallb] in Hnd.
    apply andb_true_iff in Hnd as [Hc _]. apply negb_true_iff in Hc.
    rewrite Hc. reflexivity. }
  rewrite Htoken. cbn [fst snd app].
  rewrite substitute_no_dollar by exact Hnd. reflexivity.
Qed.

(** The names [normalize_tag] substitutes. *)
Definition normalized_names : list str :=
  [lit "version"; lit "major"; lit "minor"; lit "patch"; lit "prerelease"].

(** X9: [normalize_tag] returns a format without placeholder as it is, and
    likewise a format whose placeholder is none of [version], [major],
    [minor], [patch] and [prerelease] ([$devrelease], say): the placeholder
    stays in the tag.  An empty format stands for the format of the rules. *)
Theorem normalize_tag_keeps (v : Version (scheme self)) :
  (forall format,
     format <> [] -> no_dollar format = true ->
     normalize_tag self (VObj v) (Some format) = Ok format) /\
  (forall pre id post,
     no_dollar pre = true -> no_dollar post = true ->
     ends_identifier post = true ->
     Template.identifier id = Some id ->
     existsb (str_eqb id) normalized_names = false ->
     normalize_tag self (VObj v) (Some (pre ++ "$"%char :: id ++ post)) =
     Ok (pre ++ "$"%char :: id ++ post)) /\
  normalize_tag self (VObj v) (Some []) = normalize_tag self (VObj v) None.
Proof.
  split; [|split; [|reflexivity]].
  - intros format Hne Hnd. unfold normalize_tag. cbn [bind].
    destruct format as [|c format]; [congruence|].
    destruct (release (scheme self) v) as [[major minor] patch].
    f_equal. unfold Template.safe_substitute.
    rewrite <- (app_nil_r (c :: format)) at 1.
    rewrite substitute_no_dollar by exact Hnd. apply app_nil_r.
  - intros pre id post Hpre Hpost Hend Hid Hnames.
    unfold normalize_tag. cbn [bind].
    assert (Hfmt : match pre ++ "$"%char :: id ++ post with
                   | [] => tag_format self
                   | c :: f => c :: f
                   end = pre ++ "$"%char :: id ++ post)
      by (destruct pre; reflexivity).
    rewrite Hfmt.
    destruct (release (scheme self) v) as [[major minor] patch].
    f_equal. unfold Template.safe_substitute.
    rewrite substitute_no_dollar by exact Hpre.
    rewrite substitute_unknown; [| exact Hid | | exact Hend].
    + rewrite <- (app_nil_r post) at 1.
      rewrite substitute_no_dollar by exact Hpost.
      cbn [Template.substitute_from]. rewrite app_nil_r. reflexivity.
    + unfold normalized_names in Hnames. cbn [existsb] in Hnames.
      repeat (apply orb_false_iff in Hnames as [?E Hnames]).
      cbn [Re.lookup]. rewrite E, E0, E1, E2, E3. reflexivity.
Qed.

End MoreNormalize.

(** ** Matches and the text around them *)

Module MoreRe.
Import Re.

(** A match of the scanner: where it lies in the text scanned. *)
Definition lies_in (pos : nat) (s : str) (m : Match) : Prop :=
  exists a b,
    s = a ++ group0 m ++ b /\ m_start m = pos + length a /\
    m_end m = m_start m + length (group0 m).

Lemma mk_match_lies_in (r : regex) (pos : nat) (s : str) (p : path) :
  lies_in pos s (mk_match r pos s p).
Proof.
  exists [], (skipn (length s - length (fst p)) s). unfold mk_match.
  cbn [group0 m_start m_end app length]. rewrite firstn_skipn.
  split; [reflexivity|]. split; [lia|].
  rewrite length_firstn. lia.
Qed.

Lemma matches_here_lies_in (r : regex) (pos : nat) (s : str) (m : Match) :
  In m (fst (matches_here r pos s)) -> lies_in pos s m.
Proof.
  unfold matches_here.
  destruct (match_at r pos false s) as [p|]; cbn [fst]; [|intros []].
  destruct (length s - length (fst p)); cbn [fst].
  - destruct (match_at r pos true s); cbn [fst];
      intros H; repeat (destruct H as [<-|H]; [apply mk_match_lies_in|]);
      destruct H.
  - intros [<-|[]]. apply mk_match_lies_in.
Qed.

Lemma scan_lies_in (r : regex) (s : str) :
  forall pos skip m, In m (scan r pos skip s) -> lies_in pos s m.
Proof.
  assert (Hshift : forall pos c s' m,
             lies_in (S pos) s' m -> lies_in pos (c :: s') m).
  { intros pos c s' m (a & b & E & Hs & He). exists (c :: a), b.
    rewrite E. cbn [app length]. split; [reflexivity|]. split; lia. }
  induction s as [|c s IH]; intros pos skip m; destruct skip; cbn [scan].
  - rewrite app_nil_r. apply matches_here_lies_in.
  - intros [].
  - intros H. apply in_app_or in H as [H|H].
    + eapply matches_here_lies_in. exact H.
    + apply Hshift. eapply IH. exact H.
  - intros H. apply Hshift. eapply IH. exact H.
Qed.

(** Every match of [finditer] is a part of the text, between its start and
    its end. *)
Lemma finditer_lies_in (r : regex) (txt : str) (m : Match) :
  In m (finditer r txt) -> lies_in 0 txt m.
Proof. apply scan_lies_in. Qed.

(** The matches of the scanner start after what it passes over. *)
Lemma scan_after (r : regex) (s : str) :
  forall pos skip m, In m (scan r pos skip s) -> pos + skip <= m_start m.
Proof.
  induction s as [|c s IH]; intros pos skip m; destruct skip; cbn [scan].
  - rewrite app_nil_r. intros H. apply matches_here_lies_in in H.
    destruct H as (a & b & _ & Hs & _). lia.
  - intros [].
  - intros H. apply in_app_or in H as [H|H].
    + apply matches_here_lies_in in H. destruct H as (a & b & _ & Hs & _). lia.
    + apply IH in H. lia.
  - intros H. apply IH in H. lia.
Qed.

Definition before (a b : Match) : Prop := m_end a <= m_start b.

Lemma match_at_advances (r : regex) (pos : nat) (s : str) (p : path) :
  match_at r pos true s = Some p -> length (fst p) < length s.
Proof.
  unfold match_at.
  destruct (filter _ (run r (pos =? 0) s [])) as [|q qs] eqn:E; [discriminate|].
  intros H. injection H as <-.
  assert (Hin : In q (filter (fun p : path => length (fst p) <? length s)
                             (run r (pos =? 0) s [])))
    by (rewrite E; left; reflexivity).
  apply filter_In in Hin as [_ Hlt]. apply Nat.ltb_lt. exact Hlt.
Qed.

(** What [matches_here] finds ends where the scanner resumes, and is in
    order. *)
Lemma matches_here_before (r : regex) (pos : nat) (s : str) :
  StronglySorted before (fst (matches_here r pos s)) /\
  forall m, In m (fst (matches_here r pos s)) ->
            m_end m <= S pos + snd (matches_here r pos s).
Proof.
  unfold matches_here.
  destruct (match_at r pos false s) as [p|]; cbn [fst snd].
  2:{ split; [constructor | intros m []]. }
  destruct (length s - length (fst p)) as [|k] eqn:En; cbn [fst snd].
  - destruct (match_at r pos true s) as [p'|] eqn:E'; cbn [fst snd].
    + apply match_at_advances in E'.
      split.
      * repeat constructor. unfold before, mk_match. cbn [m_start m_end]. lia.
      * intros m [<-|[<-|[]]]; unfold mk_match; cbn [m_end]; lia.
    + split; [repeat constructor|].
      intros m [<-|[]]. unfold mk_match. cbn [m_end]. lia.
  - split; [repeat constructor|].
    intros m [<-|[]]. unfold mk_match. cbn [m_end]. lia.
Qed.

Lemma sorted_app {A : Type} (R : A -> A -> Prop) (l1 l2 : list A) :
  StronglySorted R l1 -> StronglySorted R l2 ->
  (forall a b, In a l1 -> In b l2 -> R a b) ->
  StronglySorted R (l1 ++ l2).
Proof.
  intros H1 H2 H. induction H1 as [|a l1 H1 IH Ha]; [exact H2|].
  cbn [app]. constructor.
  - apply IH. intros x y Hx Hy. apply H; [right|]; assumption.
  - apply Forall_app. split; [exact Ha|].
    apply Forall_forall. intros y Hy. apply H; [left; reflexivity | exact Hy].
Qed.

Lemma scan_sorted (r : regex) (s : str) :
  forall pos skip, StronglySorted before (scan r pos skip s).
Proof.
  induction s as [|c s IH]; intros pos skip; destruct skip; cbn [scan].
  - rewrite app_nil_r. apply (proj1 (matches_here_before r pos [])).
  - constructor.
  - apply sorted_app;
      [apply (proj1 (matches_here_before r pos (c :: s))) | apply IH|].
    intros a b Ha Hb. unfold before.
    apply (proj2 (matches_here_before r pos (c :: s))) in Ha.
    apply scan_after in Hb. lia.
  - apply IH.
Qed.

(** The matches of [finditer] come in the order of the text and do not
    overlap. *)
Lemma finditer_sorted (r : regex) (txt : str) :
  StronglySorted before (finditer r txt).
Proof. apply scan_sorted. Qed.

Lemma sorted_last {A : Type} (R : A -> A -> Prop) (a : A) (l : list A) :
  StronglySorted R (a :: l) -> l <> [] -> R a (List.last l a).
Proof.
  intros H Hne. inversion H as [|? ? _ Hall]; subst.
  rewrite Forall_forall in Hall. apply Hall.
  destruct l as [|b l]; [congruence|].
  clear. revert a b. induction l as [|c l IH]; intros a b; [left; reflexivity|].
  right. change (In (List.last (c :: l) a) (c :: l)). apply IH.
Qed.

End MoreRe.

Section MoreSearch.

Variable get_tag_regexes : str -> list (str * str).
Variable self : TagRules.

Lemma version_and_tag_text (m : Re.Match) (v : option str) (text : str) :
  version_and_tag m = Some (v, text) -> text = Re.group0 m.
Proof.
  unfold version_and_tag. destruct (dict_mem _ _).
  - intros H. injection H as _ <-. reflexivity.
  - destruct (dict_item _ (lit "major")); [|discriminate].
    destruct (dict_item _ (lit "minor")); [|discriminate].
    destruct (dict_item _ (lit "patch")); [|discriminate].
    intros H. injection H as _ <-. reflexivity.
Qed.

(** X11: the tag text [search_version] returns is a part of the text it
    searched. *)
Theorem search_version_slice (txt : str) (last : bool) (v : option str)
    (text : str) :
  search_version get_tag_regexes self txt last = Ok (Some (v, text)) ->
  exists before after, txt = before ++ text ++ after.
Proof.
  intros H.
  destruct (version_regexes get_tag_regexes self) as [regexes|e] eqn:Hv.
  2:{ unfold search_version in H. rewrite Hv in H. discriminate. }
  rewrite (search_version_winner get_tag_regexes self txt last _ Hv) in H.
  destruct (winner regexes txt) as [[r [|m0 ms]]|] eqn:Ew; try discriminate.
  injection H as H. apply version_and_tag_text in H. subst text.
  apply winner_inv in Ew as (Hms & _ & _).
  assert (Hin : In (pick last m0 ms) (Re.finditer r txt)).
  { rewrite <- Hms. unfold pick. destruct last; [|left; reflexivity].
    apply pick_last_In. }
  apply MoreRe.finditer_lies_in in Hin as (a & b & E & _).
  exists a, b. exact E.
Qed.

(** X12: of the matches of the winning pattern, the one taken with [last]
    lies after the one taken without, and does not overlap it, unless the
    pattern matches once only and both are this one match. *)
Theorem pick_last_after_first (r : Re.regex) (txt : str) (m0 : Re.Match)
    (ms : list Re.Match) :
  Re.finditer r txt = m0 :: ms ->
  (ms = [] -> pick true m0 ms = pick false m0 ms) /\
  (ms <> [] ->
   Re.m_end (pick false m0 ms) <= Re.m_start (pick true m0 ms)) /\
  (forall m, In m (m0 :: ms) ->
     Re.m_start (pick false m0 ms) <= Re.m_start m /\
     Re.m_start m <= Re.m_start (pick true m0 ms)).
Proof.
  intros Hf. pose proof (MoreRe.finditer_sorted r txt) as Hs.
  rewrite Hf in Hs. unfold pick.
  assert (Hle : forall m, In m (m0 :: ms) -> Re.m_start m <= Re.m_end m).
  { intros m Hm. rewrite <- Hf in Hm.
    apply MoreRe.finditer_lies_in in Hm as (a & b & _ & _ & He). lia. }
  split; [intros ->; reflexivity|]. split.
  - intros Hne. apply (MoreRe.sorted_last MoreRe.before m0 ms Hs Hne).
  - intros m Hm. split.
    + destruct Hm as [<-|Hm]; [lia|].
      inversion Hs as [|? ? _ Hall]; subst. rewrite Forall_forall in Hall.
      specialize (Hall m Hm). unfold MoreRe.before in Hall.
      specialize (Hle m0 (or_introl eq_refl)). lia.
    + clear Hf. revert m0 Hs Hle m Hm.
      induction ms as [|m1 ms IH]; intros m0 Hs Hle m Hm.
      * destruct Hm as [<-|[]]. simpl. lia.
      * rewrite last_cons. destruct Hm as [<-|Hm].
        -- inversion Hs as [|? ? Hs' Hall]; subst.
           rewrite Forall_forall in Hall.
           specialize (Hall (List.last ms m1) (pick_last_In m1 ms)).
           unfold MoreRe.before in Hall.
           specialize (Hle m0 (or_introl eq_refl)). lia.
        -- inversion Hs as [|? ? Hs' Hall]; subst.
           apply (IH m1 Hs'); [|exact Hm].
           intros x Hx. apply Hle. right. exact Hx.
Qed.

End MoreSearch.

(** ** Titles and levels *)

Module MoreMarkdown.
Import Re MarkdownFacts.

(** A text is a line, with or without the newline that ends it, or it has a
    newline before its end. *)
Lemma line_cases (line : str) :
  (exists body tail,
     line = body ++ tail /\ line_end tail /\ ~ In newline body) \/
  (exists a c b, line = a ++ newline :: c :: b).
Proof.
  induction line as [|x line IH].
  - left. exists [], []. split; [reflexivity|]. split; [left; reflexivity|].
    intros [].
  - destruct IH as [(body & tail & -> & Htail & Hnl) | (a & c & b & ->)].
    + destruct (chr_eqb x newline) eqn:E.
      * apply chr_eqb_eq in E. subst x.
        destruct (body ++ tail) as [|d rest] eqn:Er.
        -- left. exists [], [newline]. split; [reflexivity|].
           split; [right; reflexivity | intros []].
        -- right. exists [], d, rest. reflexivity.
      * left. exists (x :: body), tail. split; [reflexivity|].
        split; [exact Htail|]. intros [H|H]; [|exact (Hnl H)].
        apply chr_eqb_neq in E. congruence.
    + right. exists (x :: a), c, b. reflexivity.
Qed.

(** Both functions on a line, from its heading. *)
Lemma parse_heading (get_tag_regexes : str -> list (str * str))
    (self : Markdown) (body tail : str) :
  line_end tail -> ~ In newline body ->
  parse_version_from_title get_tag_regexes self (body ++ tail) =
    match heading body with
    | Some (_, title) =>
        search_version get_tag_regexes (tag_rules self) title false
    | None => Ok None
    end /\
  parse_title_level self (body ++ tail) =
    Ok (option_map fst (heading body)).
Proof.
  intros Htail Hnl. pose proof (run_title body tail Htail Hnl) as Hrun.
  unfold parse_version_from_title, parse_title_level, re_match.
  destruct (heading body) as [[n title]|] eqn:Eh.
  - destruct Hrun as [l ->]. unfold group, mk_match. cbn [m_groups snd].
    split; [reflexivity|].
    change (lookup (lit "level")
              [(lit "title", title); (lit "level", firstn n body)])
      with (Some (firstn n body)).
    apply heading_shape in Eh as [_ ->].
    rewrite length_repeat_prefix. reflexivity.
  - rewrite Hrun. split; reflexivity.
Qed.

(** X13: on any text, a version found by [parse_version_from_title] comes
    with a level from [parse_title_level], which is at least one and counts
    characters of the text; and where [parse_title_level] finds no level,
    [parse_version_from_title] finds no version. *)
Theorem version_has_level (get_tag_regexes : str -> list (str * str))
    (self : Markdown) (line : str) :
  (forall found,
     parse_version_from_title get_tag_regexes self line = Ok (Some found) ->
     exists n, parse_title_level self line = Ok (Some n) /\
               1 <= n /\ n < length line) /\
  (parse_title_level self line = Ok None ->
   parse_version_from_title get_tag_regexes self line = Ok None).
Proof.
  destruct (line_cases line)
    as [(body & tail & -> & Htail & Hnl) | (a & c & b & ->)].
  - destruct (parse_heading get_tag_regexes self body tail Htail Hnl)
      as [Hv Hl].
    rewrite Hv, Hl. destruct (heading body) as [[n title]|] eqn:Eh.
    + split; [|discriminate]. intros found _. exists n.
      split; [reflexivity|]. apply heading_shape in Eh as [Hn ->].
      split; [exact Hn|]. rewrite !length_app, repeat_length. simpl. lia.
    + split; [discriminate | reflexivity].
  - destruct (parse_title_multiline get_tag_regexes self a b c) as [Hv Hl].
    rewrite Hv. split; [discriminate | reflexivity].
Qed.

End MoreMarkdown.

(** ** The further properties at work *)

Module MoreInstances.
Import Example Instances.

Lemma extract_version_key_error_witness :
  version_regexes get_tag_regexes build_rules = Ok build_regexes /\
  extract_version get_tag_regexes build_rules (tag "build-2.3") =
    Raise (KeyError (lit "major")) /\
  include_in_changelog get_tag_regexes build_rules (tag "build-2.3") =
    Raise (KeyError (lit "major")).
Proof.
  split; [vm_compute; reflexivity|].
  assert (Hm : exists m, full_match build_regexes (tag "build-2.3") = Some m)
    by (eexists; vm_compute; reflexivity).
  destruct Hm as [m Hm].
  apply (extract_version_key_error get_tag_regexes build_rules
           (tag "build-2.3") build_regexes m);
    [vm_compute; reflexivity | exact Hm | |];
    revert Hm; vm_compute; intros Hm; injection Hm as <-; reflexivity.
Defined.

(** The match of the legacy pattern on [ver1.2.3]. *)
Definition legacy_match : Re.Match :=
  Eval vm_compute in
    match Re.re_fullmatch (nth 1 regexes Re.Eps) (lit "ver1.2.3") with
    | Some m => m
    | None => Re.mkMatch 0 0 [] [] []
    end.

Lemma version_string_agrees_witness :
  Re.re_fullmatch (nth 1 regexes Re.Eps) (lit "ver1.2.3") = Some legacy_match /\
  exists rest,
    _version_string legacy_match =
      Ok (Some (lit "1" ++ lit "." ++ lit "2" ++ lit "." ++ lit "3" ++ rest)) /\
    version_and_tag legacy_match =
      Some (Some (lit "1" ++ lit "." ++ lit "2" ++ lit "." ++ lit "3" ++ rest),
            Re.group0 legacy_match).
Proof.
  split; [vm_compute; reflexivity|].
  apply (proj2 (version_string_agrees legacy_match)
               (lit "1") (lit "2") (lit "3"));
    try (vm_compute; reflexivity); discriminate.
Defined.

Lemma find_tag_for_first_witness :
  find_tag_for rules [tag "nightly"; tag "ver1.2.3"; tag "v1.2.3"]
               (@VObj semver (mkVersion (1, 2, 3)%N None)) =
  Ok (Some (tag "ver1.2.3")).
Proof.
  apply (proj1 (find_tag_for_first rules
                  [tag "nightly"; tag "ver1.2.3"; tag "v1.2.3"]
                  (mkVersion (1, 2, 3)%N None)) (tag "ver1.2.3")).
  exists [tag "nightly"], [tag "v1.2.3"]. split; [reflexivity|].
  split.
  - right. left. vm_compute. reflexivity.
  - intros t' [<-|[]]. vm_compute. intros [H|[H|[]]]; discriminate.
Defined.

Lemma get_version_tags_idempotent_witness :
  version_regexes get_tag_regexes rules = Ok regexes /\
  get_version_tags get_tag_regexes rules tags true =
    Ok ([tag "v1.2.3"; tag "ver1.0.0"; tag "v1.2.3"],
        [warning (tag "nightly")]) /\
  get_version_tags get_tag_regexes rules
                   [tag "v1.2.3"; tag "ver1.0.0"; tag "v1.2.3"] true =
    Ok ([tag "v1.2.3"; tag "ver1.0.0"; tag "v1.2.3"], []).
Proof.
  split; [vm_compute; reflexivity|]. split; [vm_compute; reflexivity|].
  apply (get_version_tags_idempotent get_tag_regexes rules tags true regexes
           _ [warning (tag "nightly")]); vm_compute; reflexivity.
Defined.

(** Rules with an ignored format that does not compile. *)
Definition bad_ignored_rules : TagRules := {|
  scheme := semver;
  tag_format := lit "v$version";
  legacy_tag_formats := [];
  ignored_tag_formats := [lit "("];
  merge_prereleases := false
|}.

Lemma get_version_tags_bad_ignored_witness :
  ignored_regexes get_tag_regexes bad_ignored_rules = Raise ReError /\
  get_version_tags get_tag_regexes bad_ignored_rules
                   [tag "v1.0.0"; tag "nightly"] false =
    Ok ([tag "v1.0.0"], []) /\
  get_version_tags get_tag_regexes bad_ignored_rules
                   [tag "v1.0.0"; tag "nightly"] true = Raise ReError /\
  get_version_tags get_tag_regexes bad_ignored_rules
                   [tag "v1.0.0"; tag "v2.0.0"] true =
    Ok ([tag "v1.0.0"; tag "v2.0.0"], []).
Proof.
  split; [vm_compute; reflexivity|].
  destruct (get_version_tags_bad_ignored get_tag_regexes bad_ignored_rules
              [tag "v1.0.0"; tag "nightly"] [hd Re.Eps regexes] ReError)
    as [H1 H2]; try (vm_compute; reflexivity).
  destruct (get_version_tags_bad_ignored get_tag_regexes bad_ignored_rules
              [tag "v1.0.0"; tag "v2.0.0"] [hd Re.Eps regexes] ReError)
    as [_ H3]; try (vm_compute; reflexivity).
  rewrite H1, H2, H3. repeat split; vm_compute; reflexivity.
Defined.

(** Rules with a tag format that does not compile. *)
Definition bad_format_rules : TagRules := {|
  scheme := semver;
  tag_format := lit "v$version(";
  legacy_tag_formats := [];
  ignored_tag_formats := [];
  merge_prereleases := false
|}.

Lemma bad_format_raises_witness :
  version_regexes get_tag_regexes bad_format_rules = Raise ReError /\
  include_in_changelog get_tag_regexes bad_format_rules (tag "v1.0.0") =
    Raise ReError.
Proof.
  split; [vm_compute; reflexivity|].
  apply (bad_format_raises get_tag_regexes bad_format_rules ReError).
  vm_compute. reflexivity.
Defined.

(** The rules of the examples before the legacy format was added. *)
Definition primary_rules : TagRules := {|
  scheme := semver;
  tag_format := lit "v$version";
  legacy_tag_formats := [];
  ignored_tag_formats := [lit "snapshot-*"];
  merge_prereleases := true
|}.

Lemma legacy_formats_extend_witness :
  version_regexes get_tag_regexes primary_rules = Ok [hd Re.Eps regexes] /\
  version_regexes get_tag_regexes
    (with_legacy primary_rules [lit "ver$major.$minor.$patch"]) =
    Ok regexes /\
  is_version_tag get_tag_regexes
    (with_legacy primary_rules [lit "ver$major.$minor.$patch"])
    (TagName (lit "v1.2.3")) = Ok true.
Proof.
  split; [vm_compute; reflexivity|]. split; [vm_compute; reflexivity|].
  apply (proj1 (legacy_formats_extend get_tag_regexes primary_rules
                  [lit "ver$major.$minor.$patch"] [hd Re.Eps regexes] regexes
                  eq_refl eq_refl)).
  vm_compute. reflexivity.
Defined.

Lemma normalize_tag_keeps_witness :
  normalize_tag rules (@VObj semver (mkVersion (1, 2, 3)%N None))
                (Some (lit "v$major.$minor$devrelease")) =
    Ok (lit "v1.2$devrelease") /\
  normalize_tag rules (@VObj semver (mkVersion (1, 2, 3)%N None))
                (Some (lit "release$devrelease-final")) =
    Ok (lit "release$devrelease-final").
Proof.
  split; [vm_compute; reflexivity|].
  apply (proj1 (proj2 (normalize_tag_keeps rules (mkVersion (1, 2, 3)%N None)))
               (lit "release") (lit "devrelease") (lit "-final"));
    vm_compute; reflexivity.
Defined.

Lemma search_version_slice_witness :
  search_version get_tag_regexes rules (lit "## v1.2.3 (2023-01-01)") false =
    Ok (Some (Some (lit "1.2.3"), lit "v1.2.3")) /\
  exists before after,
    lit "## v1.2.3 (2023-01-01)" = before ++ lit "v1.2.3" ++ after.
Proof.
  split; [vm_compute; reflexivity|].
  apply (search_version_slice get_tag_regexes rules
           (lit "## v1.2.3 (2023-01-01)") false (Some (lit "1.2.3"))).
  vm_compute. reflexivity.
Defined.

(** The matches of the primary pattern in a text with two tags. *)
Definition two_matches : list Re.Match :=
  Eval vm_compute in
    Re.finditer (hd Re.Eps regexes) (lit "v1.0.0 and v2.0.0").

Lemma pick_last_after_first_witness :
  Re.finditer (hd Re.Eps regexes) (lit "v1.0.0 and v2.0.0") = two_matches /\
  Re.m_end (pick false (hd legacy_match two_matches) (List.tl two_matches)) <=
  Re.m_start (pick true (hd legacy_match two_matches) (List.tl two_matches)).
Proof.
  split; [vm_compute; reflexivity|].
  apply (proj1 (proj2 (pick_last_after_first (hd Re.Eps regexes)
                         (lit "v1.0.0 and v2.0.0")
                         (hd legacy_match two_matches)
                         (List.tl two_matches) eq_refl))).
  vm_compute. discriminate.
Defined.

Lemma version_has_level_witness :
  parse_version_from_title get_tag_regexes {| tag_rules := rules |}
                           (lit "## v1.2.3 (2023-01-01)") =
    Ok (Some (Some (lit "1.2.3"), lit "v1.2.3")) /\
  exists n,
    parse_title_level {| tag_rules := rules |}
                      (lit "## v1.2.3 (2023-01-01)") = Ok (Some n) /\
    1 <= n /\ n < length (lit "## v1.2.3 (2023-01-01)").
Proof.
  split; [vm_compute; reflexivity|].
  apply (proj1 (MoreMarkdown.version_has_level get_tag_regexes
                  {| tag_rules := rules |} (lit "## v1.2.3 (2023-01-01)"))
               (Some (lit "1.2.3"), lit "v1.2.3")).
  vm_compute. reflexivity.
Defined.

(** What the group [version] holds in the pattern of [v$version]. *)
Definition version_body : Re.regex :=
  Eval vm_compute in
    match hd Re.Eps regexes with
    | Re.Seq _ (Re.Grp _ rv) => rv
    | _ => Re.Eps
    end.

Lemma roundtrip_plain_format_witness :
  version_regexes get_tag_regexes rules =
    Ok (ReFacts.sequence
          (map Re.Chr (lit "v") ++
           Re.Grp (lit "version") version_body :: map Re.Chr [])
        :: List.tl regexes) /\
  exists s,
    name (tag "v1.2.3-rc1") = lit "v" ++ s ++ [] /\
    extract_version get_tag_regexes rules (tag "v1.2.3-rc1") =
      scheme_call (scheme rules) (Some s) /\
    (forall v, scheme_call (scheme rules) (Some s) = Ok v ->
               version_str (scheme rules) v = s ->
               normalize_tag rules (VObj v) None = Ok (name (tag "v1.2.3-rc1"))).
Proof.
  split; [vm_compute; reflexivity|].
  assert (Hm : exists m,
             Re.re_fullmatch
               (ReFacts.sequence
                  (map Re.Chr (lit "v") ++
                   Re.Grp (lit "version") version_body :: map Re.Chr []))
               (name (tag "v1.2.3-rc1")) = Some m)
    by (eexists; vm_compute; reflexivity).
  destruct Hm as [m Hm].
  apply (roundtrip_plain_format get_tag_regexes rules (tag "v1.2.3-rc1")
           (lit "v") [] version_body (List.tl regexes) m);
    try (vm_compute; reflexivity). exact Hm.
Defined.

End MoreInstances.
